(** * Steam cost calculator: a shallow embedding of [calc_cost.py] and
      [format_cost.py], with the properties of their segmenter, amount
      extractor, classifier, aggregator, balance detector and formatter.

    Python strings are sequences of Unicode code points; a line is a list
    of code points, a document a list of lines.  [Decimal] values are
    coefficient/exponent pairs under the context [prec = 12] that
    [calc_cost.py] sets on its first line of code. *)

From Stdlib Require Import String Ascii.
From Stdlib Require Import List ZArith NArith QArith Qpower Bool Lia.
Import ListNotations.

Local Open Scope Z_scope.

(** ** Text *)

Definition char := N.
Definition str := list char.

(** ASCII literals of the source, as code points. *)
Fixpoint lit (s : string) : str :=
  match s with
  | EmptyString => []
  | String a s' => N_of_ascii a :: lit s'
  end.

Definition char_eqb (a b : char) : bool := N.eqb a b.

Fixpoint str_eqb (a b : str) : bool :=
  match a, b with
  | [], [] => true
  | x :: a', y :: b' => char_eqb x y && str_eqb a' b'
  | _, _ => false
  end.

(** [str.isspace] and the class [\s] of a [str] pattern: the code points
    Python counts as whitespace. *)
Definition isspace (c : char) : bool :=
  ((9 <=? c) && (c <=? 13) || (28 <=? c) && (c <=? 32)
   || (c =? 133) || (c =? 160) || (c =? 5760)
   || (8192 <=? c) && (c <=? 8202)
   || (c =? 8232) || (c =? 8233) || (c =? 8239) || (c =? 8287)
   || (c =? 12288))%N.

(** The class [\d] of a [str] pattern is the Unicode category Nd, which
    comes in runs of ten consecutive code points valued 0 to 9; the table
    lists the code point of each run's zero (Unicode 14). *)
Definition decimal_zeros : list N :=
  [48; 1632; 1776; 1984; 2406; 2534; 2662; 2790; 2918; 3046; 3174; 3302;
   3430; 3558; 3664; 3792; 3872; 4160; 4240; 6112; 6160; 6470; 6608; 6784;
   6800; 6992; 7088; 7232; 7248; 42528; 43216; 43264; 43472; 43504; 43600;
   44016; 65296; 66720; 68912; 69734; 69872; 69942; 70096; 70384; 70736;
   70864; 71248; 71360; 71472; 71904; 72016; 72784; 73040; 73120; 92768;
   92864; 93008; 120782; 120792; 120802; 120812; 120822; 123200; 123632;
   125264; 130032]%N.

Fixpoint decimal_in (zs : list N) (c : char) : option Z :=
  match zs with
  | [] => None
  | z :: zs' =>
      if ((z <=? c) && (c <? z + 10))%N then Some (Z.of_N (c - z))
      else decimal_in zs' c
  end.

(** The decimal value of a code point of category Nd. *)
Definition decimal_value (c : char) : option Z := decimal_in decimal_zeros c.

Definition isdecimal (c : char) : bool :=
  match decimal_value c with Some _ => true | None => false end.

Fixpoint startswith (p s : str) : bool :=
  match p, s with
  | [], _ => true
  | _ :: _, [] => false
  | x :: p', y :: s' => char_eqb x y && startswith p' s'
  end.

(** [sub in s] *)
Fixpoint contains (sub s : str) : bool :=
  startswith sub s ||
  match s with
  | [] => false
  | _ :: s' => contains sub s'
  end.

Fixpoint dropwhile (p : char -> bool) (s : str) : str :=
  match s with
  | [] => []
  | c :: s' => if p c then dropwhile p s' else s
  end.

Definition lstrip (s : str) : str := dropwhile isspace s.
Definition rstrip (s : str) : str := rev (dropwhile isspace (rev s)).
Definition strip (s : str) : str := rstrip (lstrip s).

(** ** The date marker

    [^\d{4}\s*年\s*\d{1,2}\s*月\s*\d{1,2}\s*日] matched at the start of the
    text.  The classes [\d], [\s] and the three literals are pairwise
    disjoint, so each greedy repetition has only one way to let the rest of
    the pattern go on: the matcher below takes the greedy path. *)

Definition c_year : char := 24180%N.   (* 年 *)
Definition c_month : char := 26376%N.  (* 月 *)
Definition c_day : char := 26085%N.    (* 日 *)

(** [\d{n}] *)
Fixpoint re_digits (n : nat) (s : str) : option str :=
  match n with
  | O => Some s
  | S n' =>
      match s with
      | c :: s' => if isdecimal c then re_digits n' s' else None
      | [] => None
      end
  end.

(** [\d{1,2}] *)
Definition re_digits_1_2 (s : str) : option str :=
  match s with
  | c :: s' =>
      if isdecimal c then
        match s' with
        | d :: s'' => if isdecimal d then Some s'' else Some s'
        | [] => Some s'
        end
      else None
  | [] => None
  end.

(** [\s*] followed by the literal [c] *)
Definition re_spaces_then (c : char) (s : str) : option str :=
  match dropwhile isspace s with
  | d :: s' => if char_eqb d c then Some s' else None
  | [] => None
  end.

Definition bind {A B} (o : option A) (f : A -> option B) : option B :=
  match o with Some a => f a | None => None end.

Definition DATE_PATTERN_match (s : str) : option str :=
  bind (re_digits 4 s) (fun s1 =>
  bind (re_spaces_then c_year s1) (fun s2 =>
  bind (re_digits_1_2 (dropwhile isspace s2)) (fun s3 =>
  bind (re_spaces_then c_month s3) (fun s4 =>
  bind (re_digits_1_2 (dropwhile isspace s4)) (fun s5 =>
  re_spaces_then c_day s5))))).

Definition is_date_line (text : str) : bool :=
  match DATE_PATTERN_match (strip text) with
  | Some _ => true
  | None => false
  end.

(** ** The segmenter *)

Definition nonempty {A} (l : list A) : bool :=
  match l with [] => false | _ :: _ => true end.

(** The loop of [split_blocks], with its two locals [blocks] and
    [current], and the flush after the loop. *)
Fixpoint split_loop (lines : list str) (blocks : list (list str))
    (current : list str) : list (list str) :=
  match lines with
  | [] => if nonempty current then blocks ++ [current] else blocks
  | line :: rest =>
      if is_date_line line then
        split_loop rest
          (if nonempty current then blocks ++ [current] else blocks) [line]
      else if nonempty current then split_loop rest blocks (current ++ [line])
      else split_loop rest blocks [line]
  end.

Definition split_blocks (lines : list str) : list (list str) :=
  split_loop lines [] [].

(** ** Decimal

    A finite [Decimal] is a sign, a coefficient and an exponent; the sign
    is carried by the coefficient.  The program builds no infinity and no
    NaN.  The context is the default one with [prec = 12]: rounding is
    ROUND_HALF_EVEN.  The context's exponent range (Emax = 999999,
    Emin = -999999) is outside the model: only a token of about a million
    characters reaches it. *)

Record Decimal := mkDecimal { dcoef : Z; dexp : Z }.

Definition prec : Z := 12.

(** [Decimal("0")], also what the [int] 0 converts to *)
Definition Decimal_0 : Decimal := mkDecimal 0 0.

(** The number the pair stands for is [dcoef * 10 ^ dexp]; two values are
    compared after both are brought to the smaller exponent. *)
Definition aligned (d : Decimal) (m : Z) : Z := dcoef d * 10 ^ (dexp d - m).

Definition dec_compare (a b : Decimal) : comparison :=
  let m := Z.min (dexp a) (dexp b) in
  Z.compare (aligned a m) (aligned b m).

(** [a > b], [a <= b] and [a == b] on Decimals *)
Definition dec_gtb (a b : Decimal) : bool :=
  match dec_compare a b with Gt => true | _ => false end.
Definition dec_leb (a b : Decimal) : bool := negb (dec_gtb a b).
Definition dec_eqb (a b : Decimal) : bool :=
  match dec_compare a b with Eq => true | _ => false end.

(** [d == 0] *)
Definition dec_is_zero (d : Decimal) : bool := dec_eqb d Decimal_0.

(** [len(self._int)] for a coefficient [n >= 0] *)
Fixpoint ndigits_fuel (fuel : nat) (n : Z) : Z :=
  match fuel with
  | O => 1
  | S f => if n <? 10 then 1 else 1 + ndigits_fuel f (n / 10)
  end.

Definition ndigits (n : Z) : Z := ndigits_fuel (Z.to_nat (Z.log2 n)) n.

(** The coefficient [n >= 0] without its last [k > 0] digits, rounded
    half-even on the digits dropped. *)
Definition round_half_even (n k : Z) : Z :=
  let q := n / 10 ^ k in
  let r := n mod 10 ^ k in
  let half := 5 * 10 ^ (k - 1) in
  if (half <? r) || ((r =? half) && Z.odd q) then q + 1 else q.

(** [Decimal._fix]: round to the context's precision. *)
Definition dec_fix (d : Decimal) : Decimal :=
  if dcoef d =? 0 then d
  else
    let a := Z.abs (dcoef d) in
    let exp_min := ndigits a + dexp d - prec in
    if dexp d <? exp_min then
      let q := round_half_even a (exp_min - dexp d) in
      if prec <? ndigits q
      then mkDecimal (Z.sgn (dcoef d) * (q / 10)) (exp_min + 1)
      else mkDecimal (Z.sgn (dcoef d) * q) exp_min
    else d.

(** [a + b] *)
Definition dec_add (a b : Decimal) : Decimal :=
  let m := Z.min (dexp a) (dexp b) in
  dec_fix (mkDecimal (aligned a m + aligned b m) m).

(** [a * b] *)
Definition dec_mul (a b : Decimal) : Decimal :=
  dec_fix (mkDecimal (dcoef a * dcoef b) (dexp a + dexp b)).

(** [Decimal._rescale(exp, ROUND_HALF_EVEN)] *)
Definition rescale (d : Decimal) (e : Z) : Decimal :=
  if dcoef d =? 0 then mkDecimal 0 e
  else if e <=? dexp d then mkDecimal (aligned d e) e
  else mkDecimal (Z.sgn (dcoef d) * round_half_even (Z.abs (dcoef d)) (e - dexp d)) e.

(** [d.quantize(Decimal("0.01"))]; [None] is InvalidOperation, raised when
    the result would not fit the precision. *)
Definition quantize_cents (d : Decimal) : option Decimal :=
  if dcoef d =? 0 then Some (mkDecimal 0 (-2))
  else if prec <? (ndigits (Z.abs (dcoef d)) + dexp d - 1) - (-2) + 1 then None
  else
    let ans := rescale d (-2) in
    if prec <? ndigits (Z.abs (dcoef ans)) then None
    else Some (dec_fix ans).

(** [sum(amts)]: Python starts from the [int] 0. *)
Definition py_sum (amts : list Decimal) : Decimal := fold_left dec_add amts Decimal_0.

(** *** Decimal(str)

    The constructor is called on text of the class [[\d,.]] with the
    commas removed.  On digits and points its grammar is: digits, then
    optionally a point and digits, at least one digit in all; the value is
    exact whatever the precision.  Any other text is rejected here, as no
    call of the program passes one. *)

Definition c_comma : char := 44%N.
Definition c_point : char := 46%N.

Fixpoint takewhile (p : char -> bool) (s : str) : str :=
  match s with
  | [] => []
  | c :: s' => if p c then c :: takewhile p s' else []
  end.

(** [int(s)] on a run of decimal digits, from the accumulator [acc] *)
Fixpoint int_of_digits (acc : Z) (s : str) : Z :=
  match s with
  | [] => acc
  | c :: s' =>
      match decimal_value c with
      | Some v => int_of_digits (10 * acc + v) s'
      | None => acc
      end
  end.

Definition Decimal_of_str (s : str) : option Decimal :=
  let intpart := takewhile isdecimal s in
  match dropwhile isdecimal s with
  | [] =>
      if nonempty intpart then Some (mkDecimal (int_of_digits 0 intpart) 0)
      else None
  | c :: frac =>
      if char_eqb c c_point && forallb isdecimal frac
         && (nonempty intpart || nonempty frac)
      then Some (mkDecimal (int_of_digits 0 (intpart ++ frac))
                           (- Z.of_nat (List.length frac)))
      else None
  end.

(** ** The amount extractor *)

Definition c_plus : char := 43%N.
Definition c_minus : char := 45%N.
Definition c_yen : char := 165%N.        (* the half-width glyph *)
Definition c_yen_full : char := 65509%N. (* the full-width glyph *)

Definition is_sign (c : char) : bool := char_eqb c c_plus || char_eqb c c_minus.
Definition is_glyph (c : char) : bool := char_eqb c c_yen || char_eqb c c_yen_full.
(** the class [[\d,.]] *)
Definition is_body (c : char) : bool :=
  isdecimal c || char_eqb c c_comma || char_eqb c c_point.

(** [\s*[¥￥]\s*([\d,.]+)] at the start of [s]: group 1 and the text
    left after the match.  Whitespace, the glyphs and the body class are
    pairwise disjoint, so the greedy repetitions never give back. *)
Definition re_glyph_body (s : str) : option (str * str) :=
  match dropwhile isspace s with
  | g :: s1 =>
      if is_glyph g then
        let s2 := dropwhile isspace s1 in
        let body := takewhile is_body s2 in
        if nonempty body then Some (body, dropwhile is_body s2) else None
      else None
  | [] => None
  end.

(** [[+-]?\s*[¥￥]\s*([\d,.]+)] at the start of [s]: the sign is taken
    when it is there, and given back when the rest then fails. *)
Definition re_amount (s : str) : option (str * str) :=
  match s with
  | c :: s' =>
      match (if is_sign c then re_glyph_body s' else None) with
      | Some r => Some r
      | None => re_glyph_body s
      end
  | [] => None
  end.

(** [\+\s*[¥￥]\s*([\d,.]+)] at the start of [s] *)
Definition re_plus_amount (s : str) : option (str * str) :=
  match s with
  | c :: s' => if char_eqb c c_plus then re_glyph_body s' else None
  | [] => None
  end.

(** [re.finditer]: the matches from left to right, each search resuming
    where the last match ended; [skip] counts the characters of the last
    match still to pass.  The result lists group 1 of every match. *)
Fixpoint finditer (re : str -> option (str * str)) (skip : nat) (s : str)
    : list str :=
  match s with
  | [] => []
  | _ :: s' =>
      match skip with
      | S k => finditer re k s'
      | O =>
          match re s with
          | Some (g, rest) =>
              g :: finditer re (List.length s - List.length rest - 1) s'
          | None => finditer re 0 s'
          end
      end
  end.

(** [m.group(1).replace(",", "")] *)
Definition remove_commas (body : str) : str :=
  filter (fun c => negb (char_eqb c c_comma)) body.

(** The body of both loops over matches: a body that [Decimal] accepts
    gives an amount, another one is passed over by the [except] clause. *)
Fixpoint amounts_of (groups : list str) : list Decimal :=
  match groups with
  | [] => []
  | g :: gs =>
      match Decimal_of_str (remove_commas g) with
      | Some d => d :: amounts_of gs
      | None => amounts_of gs
      end
  end.

Definition extract_amounts (text : str) : list Decimal :=
  amounts_of (finditer re_amount 0 text).

(** The amounts the marketplace loop adds up on one line. *)
Definition plus_amounts (line : str) : list Decimal :=
  amounts_of (finditer re_plus_amount 0 line).

(** ** The classifier *)

Definition s_market : str := lit "Steam " ++ [31038; 21306; 24066; 22330]%N. (* Steam 社区市场 *)
Definition s_funds : str := [36164; 37329]%N.                                (* 资金 *)
Definition s_plus_yen : str := [c_plus; c_yen].
Definition s_plus_yen_full : str := [c_plus; c_yen_full].
Definition s_minus_yen : str := [c_minus; c_yen].
Definition s_minus_yen_full : str := [c_minus; c_yen_full].

Definition is_market_block (block : list str) : bool :=
  let has_market := existsb (contains s_market) block in
  let has_funds := existsb (contains s_funds) block in
  let has_plus :=
    existsb (fun l => contains s_plus_yen l || contains s_plus_yen_full l) block in
  has_market && has_funds && has_plus.

Definition EXTERNAL_METHOD_KEYWORDS : list str :=
  [ [25903; 20184; 23453]%N;          (* 支付宝 *)
    [24494; 20449; 25903; 20184]%N;   (* 微信支付 *)
    [24494; 20449]%N;                 (* 微信 *)
    [38134; 34892; 21345]%N;          (* 银行卡 *)
    [38134; 32852]%N;                 (* 银联 *)
    lit "China UnionPay";
    lit "Visa";
    lit "MasterCard";
    lit "American Express" ].

(** [any(k in line for k in EXTERNAL_METHOD_KEYWORDS)] *)
Definition has_method_keyword (line : str) : bool :=
  existsb (fun k => contains k line) EXTERNAL_METHOD_KEYWORDS.

Definition has_external_method (block : list str) : bool :=
  existsb has_method_keyword block.

(** ** The per-block calculation *)

Definition WALLET_WORDS : list str :=
  [ [38065; 21253]%N;    (* 钱包 *)
    [20313; 39069]%N;    (* 余额 *)
    [21464; 26356]%N ].  (* 变更 *)

Definition has_wallet_word (line : str) : bool :=
  existsb (fun w => contains w line) WALLET_WORDS.

(** ["+¥" in line or "+￥" in line or "-¥" in line or "-￥" in line] *)
Definition has_signed_yen (line : str) : bool :=
  contains s_plus_yen line || contains s_plus_yen_full line
  || contains s_minus_yen line || contains s_minus_yen_full line.

(** The marketplace loop: [market_income += Decimal(num_str)] over every
    match of every line. *)
Definition market_loop (block : list str) : Decimal :=
  fold_left (fun market_income line =>
               fold_left dec_add (plus_amounts line) market_income)
            block Decimal_0.

(** One turn of the loops of steps 1 and 2 on a line that passed the tests. *)
Definition add_line_amounts (acc : Decimal) (line : str) : Decimal :=
  let amts := extract_amounts line in
  if nonempty amts then dec_add acc (py_sum amts) else acc.

Definition external_step1 (block : list str) : Decimal :=
  fold_left (fun acc line =>
               if has_method_keyword line && contains [c_yen] line
               then add_line_amounts acc line else acc)
            block Decimal_0.

Definition external_step2 (block : list str) : Decimal :=
  fold_left (fun acc line =>
               if negb (contains [c_yen] line) then acc
               else if has_wallet_word line then acc
               else if has_signed_yen line then acc
               else add_line_amounts acc line)
            block Decimal_0.

(** The loop of step 3 on its local [best]. *)
Definition external_best (block : list str) : option Decimal :=
  fold_left (fun best line =>
               if negb (has_signed_yen line) then best
               else match extract_amounts line with
                    | first :: _ =>
                        match best with
                        | None => Some first
                        | Some b => if dec_gtb first b then Some first else best
                        end
                    | [] => best
                    end)
            block None.

Definition calc_external_for_block (block : list str) : Decimal * Decimal :=
  let market_income :=
    if is_market_block block then market_loop block else Decimal_0 in
  let external :=
    if has_external_method block then
      let step1 := external_step1 block in
      let external := dec_add Decimal_0 step1 in
      if dec_is_zero step1 then
        let step2 := external_step2 block in
        let external := dec_add external step2 in
        if dec_is_zero step2 then
          match external_best block with
          | Some best => dec_add external best
          | None => external
          end
        else external
      else external
    else Decimal_0 in
  (external, market_income).

(** ** The balance detector *)

Fixpoint detect_current_wallet_balance (lines : list str) : option Decimal :=
  match lines with
  | [] => None
  | line :: rest =>
      let amts := extract_amounts line in
      if (3 <=? List.length amts)%nat then nth_error amts 2
      else detect_current_wallet_balance rest
  end.

(** ** The aggregation of [main] *)

(** The loop over the blocks on [(total_external, total_market_income)]. *)
Definition add_block (totals : Decimal * Decimal) (block : list str)
    : Decimal * Decimal :=
  let '(external, market_income) := calc_external_for_block block in
  (dec_add (fst totals) external, dec_add (snd totals) market_income).

Definition totals_of (blocks : list (list str)) : Decimal * Decimal :=
  fold_left add_block blocks (Decimal_0, Decimal_0).

Record Report := mkReport
  { cost_from_market : Decimal; direct_external : Decimal; total_cost : Decimal }.

Definition Decimal_0_9 : Decimal := mkDecimal 9 (-1).   (* Decimal("0.9") *)

(** The three figures of [main]; [None] when a [quantize] raises. *)
Definition report (total_external total_market_income : Decimal)
    : option Report :=
  bind (quantize_cents (dec_mul total_market_income Decimal_0_9)) (fun cfm =>
  bind (quantize_cents total_external) (fun de =>
  bind (quantize_cents (dec_add de cfm)) (fun tc =>
  Some (mkReport cfm de tc)))).

(** ** The formatter *)

Definition c_tab : char := 9%N.
Definition c_newline : char := 10%N.

(** [text.split("\t")] *)
Fixpoint split_tab (s : str) : list str :=
  match s with
  | [] => [[]]
  | c :: s' =>
      if char_eqb c c_tab then [] :: split_tab s'
      else match split_tab s' with
           | p :: ps => (c :: p) :: ps
           | [] => [[c]]
           end
  end.

(** [sep.join(parts)] *)
Fixpoint join (sep : str) (parts : list str) : str :=
  match parts with
  | [] => []
  | p :: ps =>
      match ps with
      | [] => p
      | _ :: _ => p ++ sep ++ join sep ps
      end
  end.

Definition keywords : list str :=
  [ [24066; 22330; 20132; 26131]%N;         (* 市场交易 *)
    [36141; 20080]%N;                       (* 购买 *)
    [28216; 25103; 20869; 36141; 20080]%N;  (* 游戏内购买 *)
    [36164; 37329]%N;                       (* 资金 *)
    [38065; 21253]%N;                       (* 钱包 *)
    [25903; 20184; 23453]%N ].              (* 支付宝 *)

Definition s_bar : str := lit " | ".
Definition s_item : str := lit "- ".
Definition s_rule : str := lit "---".

Definition prettify_line (text : str) : str :=
  let stripped := strip text in
  if negb (nonempty stripped) then []
  else if contains [c_tab] text then
    join s_bar (filter nonempty (map strip (split_tab text)))
  else if existsb (str_eqb stripped) keywords then s_item ++ stripped
  else rstrip text.

(** [raw.rstrip("\n")] *)
Definition rstrip_newline (s : str) : str :=
  rev (dropwhile (fun c => char_eqb c c_newline) (rev s)).

(** The loop of [format_cost_file] on [out_lines] and
    [first_content_written]; reading and writing the files is outside. *)
Fixpoint format_loop (lines : list str) (out_lines : list str)
    (first_content_written : bool) : list str :=
  match lines with
  | [] => out_lines
  | raw :: rest =>
      let line := rstrip_newline raw in
      let stripped := strip line in
      if is_date_line stripped then
        let out1 :=
          if first_content_written then out_lines ++ [[]; s_rule; []]
          else out_lines in
        format_loop rest (out1 ++ [prettify_line line]) true
      else if negb (nonempty stripped) then
        format_loop rest (out_lines ++ [[]]) first_content_written
      else
        format_loop rest (out_lines ++ [prettify_line line]) first_content_written
  end.

Definition format_cost_lines (lines : list str) : list str :=
  format_loop lines [] false.

(** ** Notions the properties are stated with *)

(** [sub] occurs in [s] as a contiguous run. *)
Definition occurs_in (sub s : str) : Prop :=
  exists pre post, s = pre ++ sub ++ post.

(** *** Currency tokens

    A currency token is an optional sign, whitespace, a glyph, whitespace
    and a body of the class [[\d,.]]. *)

Record token := mkToken
  { t_sign : option char; t_ws1 : str; t_glyph : char; t_ws2 : str; t_body : str }.

Definition sign_text (o : option char) : str :=
  match o with Some c => [c] | None => [] end.

Definition token_text (t : token) : str :=
  sign_text (t_sign t) ++ t_ws1 t ++ [t_glyph t] ++ t_ws2 t ++ t_body t.

Definition wf_token (t : token) : Prop :=
  match t_sign t with Some c => is_sign c = true | None => True end /\
  Forall (fun c => isspace c = true) (t_ws1 t) /\
  is_glyph (t_glyph t) = true /\
  Forall (fun c => isspace c = true) (t_ws2 t) /\
  t_body t <> [] /\
  Forall (fun c => is_body c = true) (t_body t).

(** The two kinds of token the program scans for. *)
Definition any_token (t : token) : Prop := True.
Definition plus_token (t : token) : Prop := t_sign t = Some c_plus.

(** A body ends where the text ends or goes on outside the body class. *)
Definition ends_body (rest : str) : Prop :=
  match rest with c :: _ => is_body c = false | [] => True end.

(** [lexed kind s ts]: read from left to right, [s] holds the tokens [ts]
    of the given kind, each starting at the first place where one can
    start and running as far as its body goes; everything else is passed
    over one character at a time. *)
Inductive lexed (kind : token -> Prop) : str -> list token -> Prop :=
| lexed_nil : lexed kind [] []
| lexed_gap c s ts :
    (forall t rest, wf_token t -> kind t -> c :: s <> token_text t ++ rest) ->
    lexed kind s ts ->
    lexed kind (c :: s) ts
| lexed_tok t rest ts :
    wf_token t -> kind t -> ends_body rest ->
    lexed kind rest ts ->
    lexed kind (token_text t ++ rest) (t :: ts).

(** A line holds a token of some kind when the token's text is a run of
    the line. *)
Definition holds_token (kind : token -> Prop) (l : str) : Prop :=
  exists t pre post, wf_token t /\ kind t /\ l = pre ++ token_text t ++ post.

(** *** The magnitude of a token, in the words of the specification

    What follows is written from the specification and calls none of the
    program's functions; only the classes of characters are Python's.  The
    body of a token is read with its grouping commas taken out: digits,
    optionally a point and more digits, one digit at least.  The amount
    written has those digits as its coefficient and one decimal place for
    every digit after the point. *)

Fixpoint spec_ungroup (body : str) : str :=
  match body with
  | [] => []
  | c :: r => if N.eqb c 44 then spec_ungroup r else c :: spec_ungroup r
  end.

(** The text before the first point, and the text after it when there is
    a point *)
Fixpoint spec_before_point (s : str) : str :=
  match s with
  | [] => []
  | c :: r => if N.eqb c 46 then [] else c :: spec_before_point r
  end.

Fixpoint spec_after_point (s : str) : option str :=
  match s with
  | [] => None
  | c :: r => if N.eqb c 46 then Some r else spec_after_point r
  end.

(** A run of digits read as an integer, the most significant digit first *)
Definition spec_digit (c : char) : Z :=
  match decimal_value c with Some v => v | None => 0 end.

Definition spec_integer (ds : str) : Z :=
  fold_left (fun n c => 10 * n + spec_digit c) ds 0.

Definition spec_number (s : str) : option Decimal :=
  let i := spec_before_point s in
  let f := match spec_after_point s with Some f => f | None => [] end in
  if forallb isdecimal (i ++ f) && nonempty (i ++ f)
  then Some (mkDecimal (spec_integer (i ++ f)) (- Z.of_nat (List.length f)))
  else None.

(** The magnitude of a token: the sign plays no part.  [None] when the
    body is no number. *)
Definition spec_magnitude (t : token) : option Decimal :=
  spec_number (spec_ungroup (t_body t)).

(** A syntactically valid token is one whose body is a number. *)
Definition spec_valid (t : token) : bool :=
  match spec_magnitude t with Some _ => true | None => false end.

(** The magnitudes of the valid tokens among [ts], in order *)
Fixpoint spec_amounts (ts : list token) : list Decimal :=
  match ts with
  | [] => []
  | t :: r =>
      match spec_magnitude t with
      | Some d => d :: spec_amounts r
      | None => spec_amounts r
      end
  end.

(** *** Exact sums

    The number a [Decimal] stands for, as a rational, and the sum of a
    list of amounts in exact arithmetic. *)
Definition value_of (d : Decimal) : Q := (inject_Z (dcoef d) * 10 ^ dexp d)%Q.

Definition exact_sum (ds : list Decimal) : Q :=
  fold_right (fun d s => (value_of d + s)%Q) 0%Q ds.

(** The largest number of decimal places among the amounts *)
Definition most_decimals (ds : list Decimal) : Z :=
  fold_right (fun d p => Z.max (- dexp d) p) 0 ds.

(** The sum can be written with twelve digits and as many decimal places
    as the amount with the most of them. *)
Definition fits_twelve_digits (ds : list Decimal) : Prop :=
  (exact_sum ds < 10 ^ (12 - most_decimals ds))%Q.

(** *** Lines of the examples *)

Definition s_alipay : str := [25903; 20184; 23453]%N.   (* 支付宝 *)

(** [¥ 76.80\t-¥ 31.37\t¥ 0.00] *)
Definition line_balance : str :=
  [c_yen] ++ lit " 76.80" ++ [c_tab] ++ [c_minus; c_yen] ++ lit " 31.37"
  ++ [c_tab] ++ [c_yen] ++ lit " 0.00".

(** [+¥128.00] and [+ ¥128.00] *)
Definition line_plus : str := [c_plus; c_yen] ++ lit "128.00".
Definition line_plus_spaced : str := [c_plus] ++ lit " " ++ [c_yen] ++ lit "128.00".

(** A block with the marketplace phrase, the funds marker and one amount *)
Definition block_market : list str := [s_market; s_funds; line_plus].
Definition block_market_spaced : list str := [s_market; s_funds; line_plus_spaced].

(** [支付宝 ¥59.00], with the half-width and with the full-width glyph *)
Definition line_alipay_half : str := s_alipay ++ lit " " ++ [c_yen] ++ lit "59.00".
Definition line_alipay_full : str := s_alipay ++ lit " " ++ [c_yen_full] ++ lit "59.00".

(** [¥1,234.50 -￥ 7 ¥1.2.3]: a body with a grouping comma, a signed token
    with the full-width glyph, and a body that is no number *)
Definition line_grouped : str :=
  [c_yen] ++ lit "1,234.50 " ++ [c_minus; c_yen_full] ++ lit " 7 "
  ++ [c_yen] ++ lit "1.2.3".

(** A marketplace block with [+¥1,234.50], [+ ￥0.5] and [+¥1.2.3] *)
Definition block_market_grouped : list str :=
  [s_market; s_funds; [c_plus; c_yen] ++ lit "1,234.50";
   [c_plus] ++ lit " " ++ [c_yen_full] ++ lit "0.5";
   [c_plus; c_yen] ++ lit "1.2.3"].

(** A marketplace block with [+¥9999999999.99], [+¥0.02] and [+¥0.04] *)
Definition block_market_thirteen : list str :=
  [s_market; s_funds; [c_plus; c_yen] ++ lit "9999999999.99";
   [c_plus; c_yen] ++ lit "0.02"; [c_plus; c_yen] ++ lit "0.04"].

(** *** Formatted documents *)




(** *** Rounding to cents

    [rounds_to_cents d n]: [n] cents is the value of [d] rounded to two
    places, to the nearest and to the even cent on a tie.  With [m] an
    exponent below both, [x] is the value of [d] and [u] one cent, in
    units of [10 ^ m]. *)
Definition rounds_to_cents (d : Decimal) (n : Z) : Prop :=
  let m := Z.min (dexp d) (-2) in
  let x := aligned d m in
  let u := 10 ^ (-2 - m) in
  Z.abs (2 * x - 2 * n * u) <= u /\
  (Z.abs (2 * x - 2 * n * u) = u -> Z.even n = true).

(** The product of two Decimals, exact *)
Definition exact_mul (a b : Decimal) : Decimal :=
  mkDecimal (dcoef a * dcoef b) (dexp a + dexp b).

(** A marketplace block with the one amount [+¥1.30555555555] *)
Definition block_twelve_digits : list str :=
  [s_market; s_funds; [c_plus; c_yen] ++ lit "1.30555555555"].

(** *** The fallback chain of the external spend *)

(** The line holds one of the two glyphs. *)
Definition has_glyph (l : str) : bool := existsb is_glyph l.

(** The amounts of a line, added up: [sum(amts)] *)
Definition line_total (l : str) : Decimal := py_sum (extract_amounts l).

(** The totals of the lines [ls], added up from the top *)
Definition sum_lines (ls : list str) : Decimal :=
  fold_left (fun acc l => dec_add acc (line_total l)) ls Decimal_0.

(** Somewhere in the line a sign starts a currency token. *)
Fixpoint carries_signed_token (s : str) : bool :=
  match s with
  | [] => false
  | c :: s' =>
      (is_sign c && match re_glyph_body s' with Some _ => true | None => false end)
      || carries_signed_token s'
  end.

(** The largest of a list of amounts *)
Fixpoint dec_max (l : list Decimal) : option Decimal :=
  match l with
  | [] => None
  | x :: r =>
      match dec_max r with
      | None => Some x
      | Some y => if dec_gtb y x then Some y else Some x
      end
  end.

(** The first amounts of the lines that [signed] picks *)
Definition first_amounts (signed : str -> bool) (block : list str) : list Decimal :=
  flat_map (fun l => if signed l then firstn 1 (extract_amounts l) else []) block.

(** The chain of three steps, over the lines each step looks at: the first
    step with a sum that is not zero gives the spend, the third one the
    largest first amount. *)
Definition fallback_chain (lines1 lines2 : list str) (firsts : list Decimal)
    : Decimal :=
  let s1 := sum_lines lines1 in
  if negb (dec_is_zero s1) then s1
  else
    let s2 := sum_lines lines2 in
    if negb (dec_is_zero s2) then s2
    else match dec_max firsts with Some b => b | None => Decimal_0 end.

(** The external spend as the specification words it: either glyph counts
    in steps 1 and 2, and a line is signed when it carries a token with a
    sign. *)
Definition spec_external (block : list str) : Decimal :=
  if has_external_method block then
    fallback_chain
      (filter (fun l => has_method_keyword l && has_glyph l) block)
      (filter (fun l => has_glyph l && negb (has_wallet_word l)
                        && negb (carries_signed_token l)) block)
      (first_amounts carries_signed_token block)
  else Decimal_0.

(** The lines that steps 1 and 2 add up when a line counts as signed by a
    sign right before a glyph *)
Definition step1_lines (block : list str) : list str :=
  filter (fun l => has_method_keyword l && has_glyph l
                   && nonempty (extract_amounts l)) block.

Definition step2_lines (block : list str) : list str :=
  filter (fun l => has_glyph l && negb (has_wallet_word l)
                   && negb (has_signed_yen l)
                   && nonempty (extract_amounts l)) block.

(** [支付宝] and then [- ¥5 ¥7]: a token with a sign, no sign right before
    a glyph *)
Definition block_signed_spaced : list str :=
  [s_alipay; [c_minus] ++ lit " " ++ [c_yen] ++ lit "5 " ++ [c_yen] ++ lit "7"].


(** *** Blocks and date markers *)

(** The number of date-marker lines of a document *)
Definition count_dates (lines : list str) : nat :=
  List.length (filter is_date_line lines).

(** A block has a first line, and no date marker after it. *)
Definition block_ok (b : list str) : Prop :=
  match b with
  | [] => False
  | _ :: rest => Forall (fun l => is_date_line l = false) rest
  end.

(** A block that starts at a date marker *)
Definition head_date (b : list str) : Prop :=
  match b with
  | [] => False
  | l :: _ => is_date_line l = true
  end.

(** [l1] is [l2] with some elements left out. *)
Inductive subseq {A : Type} : list A -> list A -> Prop :=
| subseq_nil : subseq [] []
| subseq_skip x l1 l2 : subseq l1 l2 -> subseq l1 (x :: l2)
| subseq_keep x l1 l2 : subseq l1 l2 -> subseq (x :: l1) (x :: l2).

(** A pattern is local when a match reads nothing after its last
    character, which is no whitespace: the same prefix matches whatever
    follows. *)
Definition local_pattern (f : str -> option str) : Prop :=
  forall s r, f s = Some r ->
    exists p d, s = (p ++ [d]) ++ r /\ isspace d = false /\
                forall y, f ((p ++ [d]) ++ y) = Some y.

(** *** What [main] works out

    The figures [main] prints, from the lines of the document: the report
    and the balance; [None] when a [quantize] raises.  Reading the file
    and printing are outside. *)
Definition main_figures (lines : list str) : option (Report * option Decimal) :=
  let blocks := split_blocks lines in
  let totals := totals_of blocks in
  bind (report (fst totals) (snd totals)) (fun r =>
  Some (r, detect_current_wallet_balance lines)).

(** The coefficients of a list of amounts, added up as integers *)
Definition cents_total (ds : list Decimal) : Z :=
  fold_right (fun d s => dcoef d + s) 0 ds.

(** * Properties *)

(** Passes the characters where [lemma] shows that no token starts. *)
Ltac pass_gaps lemma :=
  repeat (apply lexed_gap; [apply lemma; reflexivity|]).

(** ** Text *)

Lemma char_eqb_eq (a b : char) : char_eqb a b = true <-> a = b.
Proof. apply N.eqb_eq. Qed.

Lemma startswith_spec (p s : str) :
  startswith p s = true <-> exists post, s = p ++ post.
Proof.
  revert s; induction p as [|x p IH]; intros s; simpl.
  - split; [intros _; now exists s | reflexivity].
  - destruct s as [|y s].
    + split; [discriminate | intros [post H]; discriminate].
    + rewrite andb_true_iff, char_eqb_eq, IH. split.
      * intros [-> [post ->]]. now exists post.
      * intros [post H]. injection H as -> ->. split; [reflexivity | now exists post].
Qed.

Lemma contains_spec (sub s : str) : contains sub s = true <-> occurs_in sub s.
Proof.
  unfold occurs_in. induction s as [|c s IH].
  - simpl. rewrite orb_false_r, startswith_spec. split.
    + intros [post H]. now exists [], post.
    + intros [pre [post H]]. destruct pre; simpl in H.
      * now exists post.
      * discriminate.
  - change (contains sub (c :: s))
      with (startswith sub (c :: s) || contains sub s).
    rewrite orb_true_iff, startswith_spec, IH. split.
    + intros [[post H] | [pre [post H]]].
      * now exists [], post.
      * exists (c :: pre), post. now rewrite H.
    + intros [pre [post H]]. destruct pre as [|d pre]; simpl in H.
      * left. now exists post.
      * right. injection H as _ H. now exists pre, post.
Qed.

Lemma contains_false (sub s : str) : contains sub s = false <-> ~ occurs_in sub s.
Proof.
  rewrite <- contains_spec. destruct (contains sub s); split; congruence.
Qed.

(** ** The segmenter *)

Lemma split_loop_concat (lines : list str) :
  forall blocks current,
    concat (split_loop lines blocks current) = concat blocks ++ current ++ lines.
Proof.
  induction lines as [|line rest IH]; intros blocks current; simpl.
  - destruct current; simpl.
    + now rewrite app_nil_r.
    + rewrite concat_app; simpl. now rewrite !app_nil_r.
  - destruct (is_date_line line).
    + rewrite IH. destruct current; simpl; [reflexivity|].
      rewrite concat_app; simpl. now rewrite app_nil_r, <- app_assoc.
    + destruct current; simpl; rewrite IH; simpl; [reflexivity|].
      now rewrite <- app_assoc.
Qed.

(** C3: the blocks of [split_blocks], concatenated in block order, are the
    document's lines: nothing is lost, added or moved. *)
Theorem split_blocks_partition (lines : list str) :
  concat (split_blocks lines) = lines.
Proof.
  unfold split_blocks. now rewrite split_loop_concat.
Qed.

(** ** The classifier *)

Lemma existsb_occurs (sub : str) (block : list str) :
  existsb (contains sub) block = true <->
  exists l, In l block /\ occurs_in sub l.
Proof.
  rewrite existsb_exists.
  split; intros [l [Hin H]]; exists l; split; auto; now apply contains_spec.
Qed.

(** C2: a block is a marketplace block exactly when some line holds the
    marketplace phrase, some line the funds marker, and some line a plus
    sign with either glyph right after it, digits following or not; the
    three lines need not be the same. *)
Theorem is_market_block_iff (block : list str) :
  is_market_block block = true <->
    (exists l, In l block /\ occurs_in s_market l) /\
    (exists l, In l block /\ occurs_in s_funds l) /\
    (exists l, In l block /\
               (occurs_in s_plus_yen l \/ occurs_in s_plus_yen_full l)).
Proof.
  unfold is_market_block.
  rewrite !andb_true_iff, !existsb_occurs, existsb_exists.
  assert (Hplus : (exists x, In x block /\
                     contains s_plus_yen x || contains s_plus_yen_full x = true)
                  <-> (exists l, In l block /\
                     (occurs_in s_plus_yen l \/ occurs_in s_plus_yen_full l))).
  { split; intros [l [Hin H]]; exists l; split; auto.
    - apply orb_true_iff in H. destruct H as [H|H]; apply contains_spec in H; auto.
    - apply orb_true_iff. destruct H as [H|H]; apply contains_spec in H; auto. }
  rewrite Hplus. tauto.
Qed.

(** ** Decimal arithmetic *)

Lemma pow10_pos (k : Z) : 0 <= k -> 0 < 10 ^ k.
Proof. intros; apply Z.pow_pos_nonneg; lia. Qed.

Lemma pow10_succ (k : Z) : 0 <= k -> 10 ^ (k + 1) = 10 * 10 ^ k.
Proof. intros; rewrite Z.pow_add_r by lia; lia. Qed.

Lemma pow10_split (a b : Z) : 0 <= a -> 0 <= b -> 10 ^ (a + b) = 10 ^ a * 10 ^ b.
Proof. intros; apply Z.pow_add_r; lia. Qed.

Lemma pow10_le (a b : Z) : 0 <= a <= b -> 10 ^ a <= 10 ^ b.
Proof. intros; apply Z.pow_le_mono_r; lia. Qed.

Lemma ndigits_fuel_spec (fuel : nat) :
  forall n, 0 < n -> n < 2 ^ (Z.of_nat fuel + 1) ->
    1 <= ndigits_fuel fuel n /\
    10 ^ (ndigits_fuel fuel n - 1) <= n < 10 ^ ndigits_fuel fuel n.
Proof.
  induction fuel as [|f IH]; intros n Hpos Hlt.
  - simpl in *. assert (n = 1) by lia. subst. simpl. lia.
  - cbn [ndigits_fuel]. destruct (Z.ltb_spec n 10) as [Hs|Hb].
    + simpl. lia.
    + assert (Hq : 0 < n / 10) by (apply Z.div_str_pos; lia).
      assert (Hq2 : n / 10 < 2 ^ (Z.of_nat f + 1)).
      { replace (Z.of_nat (S f) + 1) with (Z.of_nat f + 1 + 1) in Hlt by lia.
        rewrite Z.pow_add_r in Hlt by lia. change (2 ^ 1) with 2 in Hlt.
        apply Z.div_lt_upper_bound; lia. }
      destruct (IH _ Hq Hq2) as [H1 [Hlo Hhi]].
      set (r := ndigits_fuel f (n / 10)) in *.
      replace (1 + r - 1) with (r - 1 + 1) by lia.
      replace (1 + r) with (r + 1) by lia.
      rewrite !pow10_succ by lia.
      pose proof (Z.div_mod n 10 ltac:(lia)).
      pose proof (Z.mod_pos_bound n 10 ltac:(lia)).
      lia.
Qed.

Lemma ndigits_spec (n : Z) :
  0 < n -> 1 <= ndigits n /\ 10 ^ (ndigits n - 1) <= n < 10 ^ ndigits n.
Proof.
  intros Hpos. unfold ndigits. apply ndigits_fuel_spec; [assumption|].
  rewrite Z2Nat.id by apply Z.log2_nonneg.
  replace (Z.log2 n + 1) with (Z.succ (Z.log2 n)) by lia.
  apply Z.log2_spec; assumption.
Qed.

Lemma ndigits_le_prec (n : Z) : 0 < n -> (ndigits n <= prec <-> n < 10 ^ prec).
Proof.
  intros Hpos. destruct (ndigits_spec n Hpos) as [H1 [Hlo Hhi]]. split; intros H.
  - eapply Z.lt_le_trans; [exact Hhi|]. apply pow10_le. lia.
  - destruct (Z.le_gt_cases (ndigits n) prec) as [|Hgt]; [assumption|].
    assert (10 ^ prec <= 10 ^ (ndigits n - 1)) by (apply pow10_le; unfold prec in *; lia).
    lia.
Qed.

Lemma round_half_even_bounds (n k : Z) :
  0 <= n -> 0 < k -> n / 10 ^ k <= round_half_even n k <= n / 10 ^ k + 1.
Proof.
  intros; unfold round_half_even.
  destruct (_ || _); lia.
Qed.

(** What [dec_fix] does to a positive coefficient: nothing when it fits
    the precision, and otherwise it drops [k] digits, rounding to [q]. *)
Lemma dec_fix_pos (c e : Z) :
  0 < c ->
  (c < 10 ^ prec /\ dec_fix (mkDecimal c e) = mkDecimal c e) \/
  (10 ^ prec <= c /\
   exists k q, 0 < k /\ k = ndigits c - prec /\ q = round_half_even c k /\
     10 ^ (prec - 1) <= c / 10 ^ k /\ c / 10 ^ k <= q <= c / 10 ^ k + 1 /\
     q <= 10 ^ prec /\
     e + k <= dexp (dec_fix (mkDecimal c e)) /\
     0 < dcoef (dec_fix (mkDecimal c e)) < 10 ^ prec /\
     dcoef (dec_fix (mkDecimal c e))
       * 10 ^ (dexp (dec_fix (mkDecimal c e)) - (e + k)) = q).
Proof.
  intros Hpos. destruct (ndigits_spec c Hpos) as [H1 [Hlo Hhi]].
  unfold dec_fix; cbn [dcoef dexp].
  replace (c =? 0) with false by (symmetry; apply Z.eqb_neq; lia).
  rewrite (Z.abs_eq c) by lia. rewrite (Z.sgn_pos c) by lia.
  destruct (Z.ltb_spec e (ndigits c + e - prec)) as [Hlt|Hge].
  - right. assert (Hk : 0 < ndigits c - prec) by lia.
    assert (Hc : 10 ^ prec <= c).
    { destruct (Z.le_gt_cases (10 ^ prec) c); [assumption|].
      apply ndigits_le_prec in H; lia. }
    split; [assumption|].
    exists (ndigits c - prec), (round_half_even c (ndigits c - prec)).
    set (k := ndigits c - prec) in *.
    replace (ndigits c + e - prec - e) with k by lia.
    replace (ndigits c + e - prec) with (e + k) by lia.
    pose proof (round_half_even_bounds c k ltac:(lia) Hk) as Hq.
    set (q := round_half_even c k) in *.
    assert (Hp : 0 < 10 ^ k) by (apply pow10_pos; lia).
    assert (Hdlo : 10 ^ (prec - 1) <= c / 10 ^ k).
    { apply Z.div_le_lower_bound; [assumption|].
      rewrite Z.mul_comm, <- pow10_split by (unfold prec; lia).
      replace (prec - 1 + k) with (ndigits c - 1) by lia. assumption. }
    assert (Hdhi : c / 10 ^ k < 10 ^ prec).
    { apply Z.div_lt_upper_bound; [assumption|].
      rewrite <- pow10_split by (unfold prec; lia).
      replace (k + prec) with (ndigits c) by lia. assumption. }
    assert (H11 : 0 < 10 ^ (prec - 1)) by (apply pow10_pos; unfold prec; lia).
    assert (H12 : 10 ^ prec = 10 * 10 ^ (prec - 1)).
    { replace prec with (prec - 1 + 1) at 1 by lia.
      apply pow10_succ. unfold prec; lia. }
    assert (Hr : e + k <= dexp (if prec <? ndigits q
                                then mkDecimal (1 * (q / 10)) (e + k + 1)
                                else mkDecimal (1 * q) (e + k)) /\
                 0 < dcoef (if prec <? ndigits q
                            then mkDecimal (1 * (q / 10)) (e + k + 1)
                            else mkDecimal (1 * q) (e + k)) < 10 ^ prec /\
                 dcoef (if prec <? ndigits q
                        then mkDecimal (1 * (q / 10)) (e + k + 1)
                        else mkDecimal (1 * q) (e + k))
                 * 10 ^ (dexp (if prec <? ndigits q
                               then mkDecimal (1 * (q / 10)) (e + k + 1)
                               else mkDecimal (1 * q) (e + k)) - (e + k)) = q).
    { destruct (Z.ltb_spec prec (ndigits q)) as [Hb|Hs]; cbn [dcoef dexp].
      - assert (Hq12 : q = 10 ^ prec).
        { destruct (Z.lt_ge_cases q (10 ^ prec)) as [Hs|Hs]; [|lia].
          apply ndigits_le_prec in Hs; lia. }
        rewrite Hq12, H12, (Z.mul_comm 10), Z.div_mul by lia.
        replace (e + k + 1 - (e + k)) with 1 by lia. change (10 ^ 1) with 10. lia.
      - replace (e + k - (e + k)) with 0 by lia. change (10 ^ 0) with 1.
        assert (q < 10 ^ prec) by (apply ndigits_le_prec; lia). lia. }
    destruct Hr as [Hr1 [Hr2 Hr3]].
    split; [assumption|]. split; [reflexivity|]. split; [reflexivity|].
    split; [assumption|]. split; [lia|]. split; [lia|].
    split; [assumption|]. split; assumption.
  - left. split; [|reflexivity].
    apply ndigits_le_prec; lia.
Qed.

Lemma aligned_shift (d : Decimal) (m m' : Z) :
  m <= m' <= dexp d -> aligned d m = aligned d m' * 10 ^ (m' - m).
Proof.
  intros H. unfold aligned.
  replace (dexp d - m) with ((dexp d - m') + (m' - m)) by lia.
  rewrite pow10_split by lia. lia.
Qed.

(** The order of two Decimals can be read at any exponent below both. *)
Lemma dec_leb_at (a b : Decimal) (m : Z) :
  m <= dexp a -> m <= dexp b ->
  (dec_leb a b = true <-> aligned a m <= aligned b m).
Proof.
  intros Ha Hb. unfold dec_leb, dec_gtb, dec_compare.
  set (m0 := Z.min (dexp a) (dexp b)).
  rewrite (aligned_shift a m m0), (aligned_shift b m m0) by lia.
  assert (Hp : 0 < 10 ^ (m0 - m)) by (apply pow10_pos; lia).
  destruct (Z.compare_spec (aligned a m0) (aligned b m0)); simpl;
    split; intros; try discriminate; try reflexivity; nia.
Qed.

Lemma dec_leb_refl (a : Decimal) : dec_leb a a = true.
Proof. apply (dec_leb_at a a (dexp a)); lia. Qed.

(** Rounding to the precision does not go below a value that the
    precision can hold. *)
Lemma dec_fix_above (t : Decimal) (c e : Z) :
  0 <= dcoef t < 10 ^ prec -> 0 <= c ->
  dec_leb t (mkDecimal c e) = true ->
  dec_leb t (dec_fix (mkDecimal c e)) = true.
Proof.
  intros Ht Hc Hle.
  destruct (Z.eq_dec c 0) as [->|Hnz]; [exact Hle|].
  destruct (dec_fix_pos c e ltac:(lia)) as [[_ ->] | [Hbig Hex]]; [exact Hle|].
  destruct Hex as (k & q & Hk & _ & _ & Hdlo & Hq & Hq12 & Hexp & Hcoef & Hval).
  set (r := dec_fix (mkDecimal c e)) in *.
  set (m := Z.min (dexp t) e).
  apply (dec_leb_at t (mkDecimal c e) m) in Hle; cbn [dexp]; try lia.
  apply (dec_leb_at t r m); try lia.
  assert (Hr : aligned r m = q * 10 ^ (e + k - m)).
  { unfold aligned. replace (dexp r - m) with ((dexp r - (e + k)) + (e + k - m)) by lia.
    rewrite pow10_split by lia. rewrite Z.mul_assoc, Hval. reflexivity. }
  rewrite Hr. unfold aligned in *. cbn [dcoef dexp] in Hle.
  assert (HP : 0 < 10 ^ (e - m)) by (apply pow10_pos; lia).
  assert (HK : 0 < 10 ^ k) by (apply pow10_pos; lia).
  destruct (Z.le_gt_cases (e + k) (dexp t)) as [Hhi|Hlo].
  - replace (dexp t - m) with ((dexp t - (e + k)) + (k + (e - m))) in * by lia.
    replace (e + k - m) with (k + (e - m)) by lia.
    rewrite !pow10_split in * by lia.
    set (T := dcoef t * 10 ^ (dexp t - (e + k))).
    assert (HT : T * 10 ^ k <= c) by (unfold T; nia).
    assert (T <= c / 10 ^ k).
    { apply Z.div_le_lower_bound; lia. }
    assert (HTq : T <= q) by lia.
    fold T. rewrite (Z.mul_assoc (dcoef t)). fold T.
    apply Z.mul_le_mono_nonneg_r; [nia | exact HTq].
  - assert (H1 : 10 ^ (dexp t - m) <= 10 ^ (e + k - 1 - m)) by (apply pow10_le; lia).
    assert (H2 : 10 ^ (e + k - m) = 10 * 10 ^ (e + k - 1 - m)).
    { replace (e + k - m) with (e + k - 1 - m + 1) by lia. apply pow10_succ; lia. }
    assert (H3 : 10 ^ prec = 10 * 10 ^ (prec - 1)).
    { replace prec with (prec - 1 + 1) at 1 by lia. apply pow10_succ; unfold prec; lia. }
    assert (H4 : 0 < 10 ^ (dexp t - m)) by (apply pow10_pos; lia).
    rewrite H2. nia.
Qed.

Lemma dec_fix_nonneg (d : Decimal) :
  0 <= dcoef d -> 0 <= dcoef (dec_fix d).
Proof.
  intros H. destruct d as [c e]; cbn [dcoef] in H.
  destruct (Z.eq_dec c 0) as [->|Hnz]; [simpl; lia|].
  destruct (dec_fix_pos c e ltac:(lia)) as [[_ ->] | [_ Hex]]; [simpl; lia|].
  destruct Hex as (k & q & _ & _ & _ & _ & _ & _ & _ & Hcoef & _). lia.
Qed.

Lemma dec_fix_lt_prec (d : Decimal) :
  0 <= dcoef d -> dcoef (dec_fix d) < 10 ^ prec.
Proof.
  intros H. destruct d as [c e]; cbn [dcoef] in *.
  destruct (Z.eq_dec c 0) as [->|Hnz]; [now compute|].
  destruct (dec_fix_pos c e ltac:(lia)) as [[Hc ->] | [_ Hex]]; [assumption|].
  destruct Hex as (k & q & _ & _ & _ & _ & _ & _ & _ & Hcoef & _). lia.
Qed.

Lemma aligned_nonneg (d : Decimal) (m : Z) : 0 <= dcoef d -> 0 <= aligned d m.
Proof.
  intros H. unfold aligned. apply Z.mul_nonneg_nonneg; [assumption|].
  apply Z.pow_nonneg; lia.
Qed.

Lemma dec_add_nonneg (a b : Decimal) :
  0 <= dcoef a -> 0 <= dcoef b ->
  0 <= dcoef (dec_add a b) < 10 ^ prec.
Proof.
  intros Ha Hb. unfold dec_add.
  assert (0 <= aligned a (Z.min (dexp a) (dexp b)) + aligned b (Z.min (dexp a) (dexp b))).
  { pose proof (aligned_nonneg a (Z.min (dexp a) (dexp b)) Ha).
    pose proof (aligned_nonneg b (Z.min (dexp a) (dexp b)) Hb). lia. }
  split; [apply dec_fix_nonneg | apply dec_fix_lt_prec]; assumption.
Qed.

(** Adding a non-negative amount to a value the precision holds does not
    lower it. *)
Lemma dec_add_above (a b : Decimal) :
  0 <= dcoef a < 10 ^ prec -> 0 <= dcoef b ->
  dec_leb a (dec_add a b) = true.
Proof.
  intros Ha Hb. unfold dec_add. set (m := Z.min (dexp a) (dexp b)).
  pose proof (aligned_nonneg a m ltac:(lia)).
  pose proof (aligned_nonneg b m Hb).
  apply dec_fix_above; [assumption | lia |].
  apply (dec_leb_at a _ m); cbn [dexp]; try lia.
  unfold aligned at 2. cbn [dcoef dexp]. rewrite Z.sub_diag. change (10 ^ 0) with 1. lia.
Qed.

Lemma dec_nonneg_iff (d : Decimal) : dec_leb Decimal_0 d = true <-> 0 <= dcoef d.
Proof.
  rewrite (dec_leb_at Decimal_0 d (Z.min 0 (dexp d))) by (simpl; lia).
  unfold aligned; cbn [dcoef dexp Decimal_0].
  assert (0 < 10 ^ (dexp d - Z.min 0 (dexp d))) by (apply pow10_pos; lia).
  split; intros; nia.
Qed.

Lemma fold_dec_add_nonneg (ds : list Decimal) :
  Forall (fun d => 0 <= dcoef d) ds ->
  forall acc, 0 <= dcoef acc < 10 ^ prec ->
    0 <= dcoef (fold_left dec_add ds acc) < 10 ^ prec.
Proof.
  induction 1 as [|d ds Hd _ IH]; intros acc Hacc; simpl; [assumption|].
  apply IH. apply dec_add_nonneg; lia.
Qed.

Lemma Decimal_0_fits : 0 <= dcoef Decimal_0 < 10 ^ prec.
Proof. now compute. Qed.

(** ** Amounts are magnitudes *)

Lemma decimal_in_range (zs : list N) (c : char) (v : Z) :
  decimal_in zs c = Some v -> 0 <= v <= 9.
Proof.
  induction zs as [|z zs IH]; simpl; [discriminate|].
  destruct ((z <=? c)%N && (c <? z + 10)%N) eqn:E; [|assumption].
  intros [= <-]. apply andb_true_iff in E. destruct E as [E1 E2].
  apply N.leb_le in E1. apply N.ltb_lt in E2. lia.
Qed.

Lemma int_of_digits_nonneg (s : str) :
  forall acc, 0 <= acc -> 0 <= int_of_digits acc s.
Proof.
  induction s as [|c s IH]; intros acc Hacc; cbn [int_of_digits]; [assumption|].
  destruct (decimal_value c) as [v|] eqn:E; [|assumption].
  apply decimal_in_range in E. apply IH. lia.
Qed.

Lemma Decimal_of_str_nonneg (s : str) (d : Decimal) :
  Decimal_of_str s = Some d -> 0 <= dcoef d.
Proof.
  unfold Decimal_of_str.
  destruct (dropwhile isdecimal s) as [|c frac].
  - destruct (nonempty _); [|discriminate]. intros [= <-]. simpl.
    apply int_of_digits_nonneg; lia.
  - destruct (_ && _); [|discriminate]. intros [= <-]. simpl.
    apply int_of_digits_nonneg; lia.
Qed.

Lemma amounts_of_nonneg (groups : list str) :
  Forall (fun d => 0 <= dcoef d) (amounts_of groups).
Proof.
  induction groups as [|g gs IH]; simpl; [constructor|].
  destruct (Decimal_of_str (remove_commas g)) as [d|] eqn:E; [|assumption].
  constructor; [|assumption]. eapply Decimal_of_str_nonneg; eassumption.
Qed.

Lemma py_sum_nonneg (amts : list Decimal) :
  Forall (fun d => 0 <= dcoef d) amts -> 0 <= dcoef (py_sum amts) < 10 ^ prec.
Proof.
  intros H. apply fold_dec_add_nonneg; [assumption | apply Decimal_0_fits].
Qed.

Lemma add_line_amounts_nonneg (acc : Decimal) (line : str) :
  0 <= dcoef acc < 10 ^ prec ->
  0 <= dcoef (add_line_amounts acc line) < 10 ^ prec.
Proof.
  intros Hacc. unfold add_line_amounts. destruct (nonempty _); [|assumption].
  apply dec_add_nonneg; [lia|]. apply py_sum_nonneg, amounts_of_nonneg.
Qed.

(** A loop that leaves the accumulator alone or adds to it keeps an
    invariant of the accumulator. *)
Lemma fold_left_invariant {A B} (P : A -> Prop) (f : A -> B -> A) (l : list B) :
  (forall a b, P a -> P (f a b)) -> forall a, P a -> P (fold_left f l a).
Proof.
  intros Hf. induction l as [|b l IH]; intros a Ha; simpl; auto.
Qed.

Lemma market_loop_nonneg (block : list str) :
  0 <= dcoef (market_loop block) < 10 ^ prec.
Proof.
  unfold market_loop.
  apply (fold_left_invariant (fun d => 0 <= dcoef d < 10 ^ prec));
    [|apply Decimal_0_fits].
  intros a line Ha. apply fold_dec_add_nonneg; [apply amounts_of_nonneg | assumption].
Qed.

Lemma external_step1_nonneg (block : list str) :
  0 <= dcoef (external_step1 block) < 10 ^ prec.
Proof.
  unfold external_step1.
  apply (fold_left_invariant (fun d => 0 <= dcoef d < 10 ^ prec));
    [|apply Decimal_0_fits].
  intros a line Ha. destruct (_ && _); [|assumption].
  now apply add_line_amounts_nonneg.
Qed.

Lemma external_step2_nonneg (block : list str) :
  0 <= dcoef (external_step2 block) < 10 ^ prec.
Proof.
  unfold external_step2.
  apply (fold_left_invariant (fun d => 0 <= dcoef d < 10 ^ prec));
    [|apply Decimal_0_fits].
  intros a line Ha.
  destruct (negb _); [assumption|]. destruct (has_wallet_word _); [assumption|].
  destruct (has_signed_yen _); [assumption|].
  now apply add_line_amounts_nonneg.
Qed.

Lemma external_best_nonneg (block : list str) (b : Decimal) :
  external_best block = Some b -> 0 <= dcoef b.
Proof.
  unfold external_best. revert b.
  apply (fold_left_invariant
           (fun o : option Decimal => forall b, o = Some b -> 0 <= dcoef b));
    [|discriminate].
  intros best line Hbest b.
  destruct (negb _); [apply Hbest|].
  pose proof (amounts_of_nonneg (finditer re_amount 0 line)) as Hall.
  fold (extract_amounts line) in Hall.
  destruct (extract_amounts line) as [|first rest]; [apply Hbest|].
  inversion Hall; subst.
  destruct best as [b0|].
  - destruct (dec_gtb first b0); [intros [= <-]; assumption | apply Hbest].
  - intros [= <-]; assumption.
Qed.

Lemma calc_external_nonneg (block : list str) :
  0 <= dcoef (fst (calc_external_for_block block)) < 10 ^ prec /\
  0 <= dcoef (snd (calc_external_for_block block)) < 10 ^ prec.
Proof.
  unfold calc_external_for_block; cbn [fst snd]. split.
  - destruct (has_external_method block); [|apply Decimal_0_fits].
    pose proof (external_step1_nonneg block) as H1.
    pose proof (external_step2_nonneg block) as H2.
    pose proof (dec_add_nonneg Decimal_0 (external_step1 block) ltac:(simpl; lia) ltac:(lia)) as H3.
    destruct (dec_is_zero (external_step1 block)); [|assumption].
    pose proof (dec_add_nonneg _ (external_step2 block) (proj1 H3) ltac:(lia)) as H4.
    destruct (dec_is_zero (external_step2 block)); [|assumption].
    destruct (external_best block) as [b|] eqn:E; [|assumption].
    apply dec_add_nonneg; [lia|]. eapply external_best_nonneg; eassumption.
  - destruct (is_market_block block); [apply market_loop_nonneg | apply Decimal_0_fits].
Qed.

Lemma totals_of_fit (blocks : list (list str)) :
  0 <= dcoef (fst (totals_of blocks)) < 10 ^ prec /\
  0 <= dcoef (snd (totals_of blocks)) < 10 ^ prec.
Proof.
  unfold totals_of.
  apply (fold_left_invariant
           (fun t : Decimal * Decimal =>
              0 <= dcoef (fst t) < 10 ^ prec /\ 0 <= dcoef (snd t) < 10 ^ prec)).
  - intros [te tm] block [Hte Htm]. unfold add_block.
    destruct (calc_external_nonneg block) as [He Hm].
    destruct (calc_external_for_block block) as [e m]; cbn [fst snd] in *.
    split; apply dec_add_nonneg; lia.
  - split; apply Decimal_0_fits.
Qed.

(** C8: both contributions of a block are non-negative, and folding a
    block into the running totals lowers neither total. *)
Theorem contributions_nonneg_totals_monotone
    (blocks : list (list str)) (block : list str) :
  dec_leb Decimal_0 (fst (calc_external_for_block block)) = true /\
  dec_leb Decimal_0 (snd (calc_external_for_block block)) = true /\
  dec_leb (fst (totals_of blocks)) (fst (totals_of (blocks ++ [block]))) = true /\
  dec_leb (snd (totals_of blocks)) (snd (totals_of (blocks ++ [block]))) = true.
Proof.
  destruct (calc_external_nonneg block) as [He Hm].
  destruct (totals_of_fit blocks) as [Hte Htm].
  rewrite !dec_nonneg_iff. split; [lia|]. split; [lia|].
  unfold totals_of in *. rewrite fold_left_app. cbn [fold_left].
  set (t := fold_left add_block blocks (Decimal_0, Decimal_0)) in *.
  unfold add_block.
  destruct (calc_external_for_block block) as [e m]; cbn [fst snd] in *.
  split; apply dec_add_above; lia.
Qed.

(** ** Runs of a character class *)

Lemma take_drop_while (p : char -> bool) (s : str) :
  s = takewhile p s ++ dropwhile p s.
Proof.
  induction s as [|c s IH]; simpl; [reflexivity|].
  destruct (p c); simpl; [now rewrite <- IH | reflexivity].
Qed.

Lemma takewhile_all (p : char -> bool) (s : str) :
  Forall (fun c => p c = true) (takewhile p s).
Proof.
  induction s as [|c s IH]; simpl; [constructor|].
  destruct (p c) eqn:E; constructor; assumption.
Qed.

Lemma dropwhile_head (p : char -> bool) (s : str) (c : char) (r : str) :
  dropwhile p s = c :: r -> p c = false.
Proof.
  induction s as [|d s IH]; simpl; [discriminate|].
  destruct (p d) eqn:E; [assumption|]. intros [= <- <-]. assumption.
Qed.

Lemma dropwhile_app (p : char -> bool) (a r : str) :
  Forall (fun c => p c = true) a -> dropwhile p (a ++ r) = dropwhile p r.
Proof.
  induction 1 as [|c a Hc _ IH]; simpl; [reflexivity|]. now rewrite Hc.
Qed.

Lemma takewhile_app (p : char -> bool) (a r : str) :
  Forall (fun c => p c = true) a -> takewhile p (a ++ r) = a ++ takewhile p r.
Proof.
  induction 1 as [|c a Hc _ IH]; simpl; [reflexivity|]. now rewrite Hc, IH.
Qed.

Lemma dropwhile_stop (p : char -> bool) (c : char) (r : str) :
  p c = false -> dropwhile p (c :: r) = c :: r.
Proof. intros H; simpl; now rewrite H. Qed.

Lemma forallb_Forall (p : char -> bool) (s : str) :
  forallb p s = true <-> Forall (fun c => p c = true) s.
Proof.
  rewrite forallb_forall, Forall_forall. reflexivity.
Qed.

(** ** Decimal(str) reads the numbers of the specification *)

Lemma decimal_not_point (c : char) : isdecimal c = true -> char_eqb c c_point = false.
Proof.
  intros H. destruct (char_eqb c c_point) eqn:E; [|reflexivity].
  apply char_eqb_eq in E. subst. discriminate.
Qed.

Lemma remove_commas_ungroup (body : str) : remove_commas body = spec_ungroup body.
Proof.
  unfold remove_commas. induction body as [|c b IH]; [reflexivity|].
  cbn [filter spec_ungroup]. change (char_eqb c c_comma) with (N.eqb c 44).
  destruct (N.eqb c 44); cbn [negb]; [exact IH | now rewrite IH].
Qed.

Lemma int_of_digits_integer (ds : str) :
  Forall (fun c => isdecimal c = true) ds ->
  forall acc,
    int_of_digits acc ds = fold_left (fun n c => 10 * n + spec_digit c) ds acc.
Proof.
  induction 1 as [|c ds Hc _ IH]; intros acc; [reflexivity|].
  cbn [int_of_digits fold_left]. unfold spec_digit at 2.
  unfold isdecimal in Hc.
  destruct (decimal_value c) as [v|]; [apply IH | discriminate].
Qed.

Lemma before_point_digits (ip rest : str) :
  Forall (fun c => isdecimal c = true) ip ->
  spec_before_point (ip ++ rest) = ip ++ spec_before_point rest.
Proof.
  induction 1 as [|c ip Hc _ IH]; [reflexivity|].
  cbn [app spec_before_point]. change (N.eqb c 46) with (char_eqb c c_point).
  now rewrite (decimal_not_point c Hc), IH.
Qed.

Lemma after_point_digits (ip rest : str) :
  Forall (fun c => isdecimal c = true) ip ->
  spec_after_point (ip ++ rest) = spec_after_point rest.
Proof.
  induction 1 as [|c ip Hc _ IH]; [reflexivity|].
  cbn [app spec_after_point]. change (N.eqb c 46) with (char_eqb c c_point).
  now rewrite (decimal_not_point c Hc).
Qed.

Lemma nonempty_app {A} (a b : list A) :
  nonempty (a ++ b) = nonempty a || nonempty b.
Proof. destruct a; reflexivity. Qed.

Lemma Decimal_of_str_parts (ip rest : str) :
  Forall (fun c => isdecimal c = true) ip ->
  match rest with c :: _ => isdecimal c = false | [] => True end ->
  Decimal_of_str (ip ++ rest) = spec_number (ip ++ rest).
Proof.
  intros Hip Hhd. unfold Decimal_of_str, spec_number.
  rewrite takewhile_app, dropwhile_app, before_point_digits, after_point_digits
    by assumption.
  pose proof (proj2 (forallb_Forall isdecimal ip) Hip) as Hall.
  destruct rest as [|c frac].
  - cbn [takewhile dropwhile spec_before_point spec_after_point].
    rewrite !app_nil_r, Hall. cbn [andb List.length Z.of_nat Z.opp].
    unfold spec_integer. rewrite <- (int_of_digits_integer ip Hip).
    reflexivity.
  - cbn [takewhile dropwhile spec_before_point spec_after_point].
    rewrite Hhd, app_nil_r. change (N.eqb c 46) with (char_eqb c c_point).
    destruct (char_eqb c c_point) eqn:Ec.
    + rewrite app_nil_r, forallb_app, Hall, nonempty_app. cbn [andb].
      destruct (forallb isdecimal frac) eqn:Ef; [|reflexivity].
      cbn [andb]. unfold spec_integer.
      rewrite <- int_of_digits_integer; [reflexivity|].
      apply Forall_app. split; [assumption | now apply forallb_Forall].
    + cbn [andb]. rewrite <- app_assoc, forallb_app. cbn [app forallb].
      rewrite Hhd. cbn [andb]. now rewrite andb_false_r.
Qed.

(** [Decimal(s)] succeeds exactly on the numbers, with their value. *)
Lemma Decimal_of_str_number (s : str) : Decimal_of_str s = spec_number s.
Proof.
  rewrite (take_drop_while isdecimal s).
  apply Decimal_of_str_parts; [apply takewhile_all|].
  destruct (dropwhile isdecimal s) as [|c r] eqn:E; [exact I|].
  eapply dropwhile_head; eassumption.
Qed.

(** ** The character classes of the amount pattern are disjoint *)

Lemma isspace_cases (c : char) :
  isspace c = true ->
  (9 <= c <= 13 \/ 28 <= c <= 32 \/ c = 133 \/ c = 160 \/ c = 5760 \/
   8192 <= c <= 8202 \/ c = 8232 \/ c = 8233 \/ c = 8239 \/ c = 8287 \/
   c = 12288)%N.
Proof.
  unfold isspace. rewrite !orb_true_iff, !andb_true_iff, !N.leb_le, !N.eqb_eq. lia.
Qed.

Lemma isspace_not_body (c : char) : isspace c = true -> is_body c = false.
Proof.
  intros H. apply isspace_cases in H.
  assert (Hc : In c [9; 10; 11; 12; 13; 28; 29; 30; 31; 32; 133; 160; 5760;
                      8192; 8193; 8194; 8195; 8196; 8197; 8198; 8199; 8200;
                      8201; 8202; 8232; 8233; 8239; 8287; 12288]%N).
  { simpl. lia. }
  repeat (destruct Hc as [<- | Hc]; [reflexivity|]). destruct Hc.
Qed.

Lemma is_glyph_cases (c : char) : is_glyph c = true -> c = c_yen \/ c = c_yen_full.
Proof.
  unfold is_glyph. rewrite orb_true_iff, !char_eqb_eq. tauto.
Qed.

Lemma is_sign_cases (c : char) : is_sign c = true -> c = c_plus \/ c = c_minus.
Proof.
  unfold is_sign. rewrite orb_true_iff, !char_eqb_eq. tauto.
Qed.

Lemma glyph_not_space (c : char) : is_glyph c = true -> isspace c = false.
Proof. intros H. destruct (is_glyph_cases c H) as [-> | ->]; reflexivity. Qed.

Lemma glyph_not_sign (c : char) : is_glyph c = true -> is_sign c = false.
Proof. intros H. destruct (is_glyph_cases c H) as [-> | ->]; reflexivity. Qed.

Lemma glyph_not_body (c : char) : is_glyph c = true -> is_body c = false.
Proof. intros H. destruct (is_glyph_cases c H) as [-> | ->]; reflexivity. Qed.

Lemma sign_not_space (c : char) : is_sign c = true -> isspace c = false.
Proof. intros H. destruct (is_sign_cases c H) as [-> | ->]; reflexivity. Qed.

Lemma sign_not_glyph (c : char) : is_sign c = true -> is_glyph c = false.
Proof. intros H. destruct (is_sign_cases c H) as [-> | ->]; reflexivity. Qed.

Lemma space_not_sign (c : char) : isspace c = true -> is_sign c = false.
Proof.
  intros H. destruct (is_sign c) eqn:E; [|reflexivity].
  apply sign_not_space in E. congruence.
Qed.

Lemma body_not_space (c : char) : is_body c = true -> isspace c = false.
Proof.
  intros H. destruct (isspace c) eqn:E; [|reflexivity].
  apply isspace_not_body in E. congruence.
Qed.

(** ** The amount pattern and the tokens *)

Lemma nonempty_true {A} (l : list A) : nonempty l = true <-> l <> [].
Proof. destruct l; simpl; split; congruence. Qed.

Lemma ends_body_runs (rest : str) :
  ends_body rest -> takewhile is_body rest = [] /\ dropwhile is_body rest = rest.
Proof.
  destruct rest as [|c r]; simpl; [now split|]. intros ->. now split.
Qed.

Lemma re_glyph_body_complete (ws1 ws2 body rest : str) (g : char) :
  Forall (fun c => isspace c = true) ws1 -> is_glyph g = true ->
  Forall (fun c => isspace c = true) ws2 ->
  body <> [] -> Forall (fun c => is_body c = true) body ->
  re_glyph_body (ws1 ++ [g] ++ ws2 ++ body ++ rest)
  = Some (body ++ takewhile is_body rest, dropwhile is_body rest).
Proof.
  intros H1 Hg H2 Hne Hb. unfold re_glyph_body.
  rewrite dropwhile_app by assumption.
  cbn [app]. rewrite dropwhile_stop by (now apply glyph_not_space).
  rewrite Hg, dropwhile_app by assumption.
  destruct body as [|b body]; [contradiction|].
  inversion Hb as [|? ? Hb1 Hb2]; subst.
  cbn [app]. rewrite dropwhile_stop by (now apply body_not_space).
  change (b :: body ++ rest) with ((b :: body) ++ rest).
  rewrite takewhile_app, dropwhile_app by assumption. reflexivity.
Qed.

Lemma dropwhile_ends (p : char -> bool) (s : str) :
  match dropwhile p s with c :: _ => p c = false | [] => True end.
Proof.
  destruct (dropwhile p s) as [|c r] eqn:E; [exact I|].
  eapply dropwhile_head; eassumption.
Qed.

Lemma re_glyph_body_sound (s body rest : str) :
  re_glyph_body s = Some (body, rest) ->
  exists ws1 g ws2,
    s = ws1 ++ [g] ++ ws2 ++ body ++ rest /\
    Forall (fun c => isspace c = true) ws1 /\ is_glyph g = true /\
    Forall (fun c => isspace c = true) ws2 /\
    body <> [] /\ Forall (fun c => is_body c = true) body /\ ends_body rest.
Proof.
  unfold re_glyph_body. intros H.
  pose proof (take_drop_while isspace s) as Hs.
  destruct (dropwhile isspace s) as [|g s1]; [discriminate|].
  destruct (is_glyph g) eqn:Hg; [|discriminate].
  pose proof (take_drop_while isspace s1) as Hs1.
  pose proof (take_drop_while is_body (dropwhile isspace s1)) as Hs2.
  pose proof (dropwhile_ends is_body (dropwhile isspace s1)) as Hend.
  destruct (nonempty (takewhile is_body (dropwhile isspace s1))) eqn:Hne;
    [|discriminate].
  injection H as Hb Hr.
  exists (takewhile isspace s), g, (takewhile isspace s1).
  rewrite <- Hb, <- Hr.
  split; [|split; [apply takewhile_all|split; [assumption|split;
    [apply takewhile_all|split; [now apply nonempty_true|split;
    [apply takewhile_all|exact Hend]]]]]].
  rewrite Hs at 1. f_equal. cbn [app]. f_equal.
  rewrite Hs1 at 1. f_equal. exact Hs2.
Qed.

Lemma re_amount_complete (t : token) (rest : str) :
  wf_token t -> any_token t ->
  re_amount (token_text t ++ rest)
  = Some (t_body t ++ takewhile is_body rest, dropwhile is_body rest).
Proof.
  intros (Hs & H1 & Hg & H2 & Hne & Hb) _.
  pose proof (re_glyph_body_complete (t_ws1 t) (t_ws2 t) (t_body t) rest
                (t_glyph t) H1 Hg H2 Hne Hb) as Hre.
  unfold token_text. rewrite <- !app_assoc.
  destruct (t_sign t) as [c|]; cbn [sign_text app].
  - unfold re_amount. rewrite Hs.
    cbn [app] in Hre. now rewrite Hre.
  - destruct (t_ws1 t) as [|w ws1] eqn:Ews.
    + cbn [app] in *. unfold re_amount.
      rewrite (glyph_not_sign _ Hg). exact Hre.
    + cbn [app] in *. unfold re_amount.
      inversion H1; subst. rewrite (space_not_sign w) by assumption. exact Hre.
Qed.

Lemma re_glyph_body_token (o : option char) (s body rest : str) :
  match o with Some c => is_sign c = true | None => True end ->
  re_glyph_body s = Some (body, rest) ->
  exists t, wf_token t /\ t_sign t = o /\ t_body t = body /\
            sign_text o ++ s = token_text t ++ rest /\ ends_body rest.
Proof.
  intros Ho H. apply re_glyph_body_sound in H.
  destruct H as (ws1 & g & ws2 & Hs & H1 & Hg & H2 & Hne & Hb & Hr).
  exists (mkToken o ws1 g ws2 body). unfold wf_token, token_text; cbn [t_sign t_ws1 t_glyph t_ws2 t_body].
  split; [tauto|]. split; [reflexivity|]. split; [reflexivity|].
  split; [|assumption].
  rewrite Hs. now rewrite <- !app_assoc.
Qed.

Lemma re_amount_sound (s body rest : str) :
  re_amount s = Some (body, rest) ->
  exists t, wf_token t /\ any_token t /\ t_body t = body /\
            s = token_text t ++ rest /\ ends_body rest.
Proof.
  unfold re_amount. destruct s as [|c s']; [discriminate|].
  destruct (is_sign c) eqn:Hc.
  - destruct (re_glyph_body s') as [[b r]|] eqn:E.
    + intros [= <- <-].
      destruct (re_glyph_body_token (Some c) s' b r Hc E) as (t & Hwf & _ & Hb & Hs & Hr).
      exists t. unfold any_token. tauto.
    + intros H.
      destruct (re_glyph_body_token None _ _ _ I H) as (t & Hwf & _ & Hb & Hs & Hr).
      exists t. unfold any_token. tauto.
  - intros H.
    destruct (re_glyph_body_token None _ _ _ I H) as (t & Hwf & _ & Hb & Hs & Hr).
    exists t. unfold any_token. tauto.
Qed.

Lemma re_plus_amount_complete (t : token) (rest : str) :
  wf_token t -> plus_token t ->
  re_plus_amount (token_text t ++ rest)
  = Some (t_body t ++ takewhile is_body rest, dropwhile is_body rest).
Proof.
  intros (Hs & H1 & Hg & H2 & Hne & Hb) Hplus.
  pose proof (re_glyph_body_complete (t_ws1 t) (t_ws2 t) (t_body t) rest
                (t_glyph t) H1 Hg H2 Hne Hb) as Hre.
  unfold token_text. rewrite <- !app_assoc. rewrite Hplus.
  cbn [sign_text app re_plus_amount].
  replace (char_eqb c_plus c_plus) with true by reflexivity.
  cbn [app] in Hre. exact Hre.
Qed.

Lemma re_plus_amount_sound (s body rest : str) :
  re_plus_amount s = Some (body, rest) ->
  exists t, wf_token t /\ plus_token t /\ t_body t = body /\
            s = token_text t ++ rest /\ ends_body rest.
Proof.
  unfold re_plus_amount. destruct s as [|c s']; [discriminate|].
  destruct (char_eqb c c_plus) eqn:Hc; [|discriminate].
  apply char_eqb_eq in Hc. subst c. intros H.
  destruct (re_glyph_body_token (Some c_plus) s' body rest eq_refl H)
    as (t & Hwf & Hsg & Hb & Hs & Hr).
  exists t. unfold plus_token. tauto.
Qed.

(** ** [finditer] reads the tokens from left to right *)

Lemma token_text_nonempty (t : token) : wf_token t -> token_text t <> [].
Proof.
  intros (_ & _ & _ & _ & Hne & _) H. unfold token_text in H.
  destruct (t_body t); [contradiction|].
  repeat (apply app_eq_nil in H; destruct H as [_ H]). discriminate.
Qed.

Section Finditer.
Variable re : str -> option (str * str).
Variable kind : token -> Prop.
Hypothesis re_complete : forall t rest,
  wf_token t -> kind t ->
  re (token_text t ++ rest)
  = Some (t_body t ++ takewhile is_body rest, dropwhile is_body rest).
Hypothesis re_sound : forall s body rest,
  re s = Some (body, rest) ->
  exists t, wf_token t /\ kind t /\ t_body t = body /\
            s = token_text t ++ rest /\ ends_body rest.

Lemma finditer_skip (a r : str) :
  finditer re (List.length a) (a ++ r) = finditer re 0 r.
Proof. induction a as [|c a IH]; simpl; [reflexivity | exact IH]. Qed.

Lemma finditer_lexed (s : str) (ts : list token) :
  lexed kind s ts -> finditer re 0 s = map t_body ts.
Proof.
  induction 1 as [| c s ts Hno _ IH | t rest ts Hwf Hk Hr _ IH].
  - reflexivity.
  - cbn [finditer]. destruct (re (c :: s)) as [[b r]|] eqn:E; [|exact IH].
    apply re_sound in E. destruct E as (t & Hwf & Hk & _ & Hs & _).
    exfalso. exact (Hno t r Hwf Hk Hs).
  - pose proof (re_complete t rest Hwf Hk) as Hre.
    destruct (ends_body_runs rest Hr) as [Ht Hd].
    rewrite Ht, Hd, app_nil_r in Hre.
    pose proof (token_text_nonempty t Hwf) as Hne.
    destruct (token_text t) as [|c tl] eqn:Et; [contradiction|].
    cbn [app finditer] in *. rewrite Hre. cbn [map]. f_equal.
    replace (List.length (c :: tl ++ rest) - List.length rest - 1)%nat
      with (List.length tl).
    + rewrite finditer_skip. exact IH.
    + cbn [List.length]. rewrite length_app. lia.
Qed.

(** Every text reads as tokens. *)
Lemma lexed_exists_upto (n : nat) :
  forall s, (List.length s <= n)%nat -> exists ts, lexed kind s ts.
Proof.
  induction n as [|n IH]; intros s Hlen.
  - destruct s; [|simpl in Hlen; lia]. exists []. constructor.
  - destruct s as [|c s]; [exists []; constructor|].
    destruct (re (c :: s)) as [[b r]|] eqn:E.
    + apply re_sound in E. destruct E as (t & Hwf & Hk & _ & Hs & Hr).
      destruct (IH r) as [ts Hts].
      { pose proof (token_text_nonempty t Hwf) as Hne.
        apply (f_equal (@List.length char)) in Hs.
        rewrite length_app in Hs. cbn [List.length] in *.
        destruct (token_text t); [contradiction|]. cbn [List.length] in Hs. lia. }
      exists (t :: ts). rewrite Hs. now constructor.
    + destruct (IH s) as [ts Hts]; [simpl in Hlen; lia|].
      exists ts. constructor; [|assumption].
      intros t rest Hwf Hk Hs.
      rewrite Hs, (re_complete t rest Hwf Hk) in E. discriminate.
Qed.

Lemma lexed_exists (s : str) : exists ts, lexed kind s ts.
Proof. apply (lexed_exists_upto (List.length s)). lia. Qed.
End Finditer.

(** The generic extractor finds the tokens of a line. *)
Lemma finditer_amount_lexed (s : str) (ts : list token) :
  lexed any_token s ts -> finditer re_amount 0 s = map t_body ts.
Proof.
  apply finditer_lexed; [apply re_amount_complete | apply re_amount_sound].
Qed.

(** The marketplace scan finds the tokens with a plus sign. *)
Lemma finditer_plus_lexed (s : str) (ts : list token) :
  lexed plus_token s ts -> finditer re_plus_amount 0 s = map t_body ts.
Proof.
  apply finditer_lexed; [apply re_plus_amount_complete | apply re_plus_amount_sound].
Qed.

Lemma amounts_of_tokens (ts : list token) :
  amounts_of (map t_body ts) = spec_amounts ts.
Proof.
  induction ts as [|t ts IH]; [reflexivity|].
  cbn [map amounts_of spec_amounts]. unfold spec_magnitude.
  rewrite remove_commas_ungroup, Decimal_of_str_number.
  destruct (spec_number (spec_ungroup (t_body t))); now rewrite IH.
Qed.

Lemma spec_amounts_length (ts : list token) :
  List.length (spec_amounts ts) = List.length (filter spec_valid ts).
Proof.
  induction ts as [|t ts IH]; [reflexivity|].
  cbn [spec_amounts filter]. unfold spec_valid at 1.
  destruct (spec_magnitude t); cbn [List.length]; now rewrite IH.
Qed.

(** C6: when a line reads, from left to right, as the currency tokens
    [ts], the extractor returns the magnitudes of the valid ones among
    them, in that order and no other amount: as many amounts as valid
    tokens.  The magnitude is the number the body writes once its grouping
    commas are taken out, the sign playing no part.  A token whose body is
    no number gives no amount and no error: the extractor is a total
    function. *)
Theorem extract_amounts_tokens (line : str) (ts : list token) :
  lexed any_token line ts ->
  extract_amounts line = spec_amounts ts /\
  List.length (extract_amounts line) = List.length (filter spec_valid ts).
Proof.
  intros H. unfold extract_amounts.
  rewrite (finditer_amount_lexed line ts H), amounts_of_tokens.
  split; [reflexivity | apply spec_amounts_length].
Qed.

(** Where the pattern does not match, no token starts. *)
Lemma no_amount_here (s : str) :
  re_amount s = None ->
  forall t rest, wf_token t -> any_token t -> s <> token_text t ++ rest.
Proof.
  intros E t rest Hwf Hk Hs.
  rewrite Hs, (re_amount_complete t rest Hwf Hk) in E. discriminate.
Qed.

Lemma no_plus_amount_here (s : str) :
  re_plus_amount s = None ->
  forall t rest, wf_token t -> plus_token t -> s <> token_text t ++ rest.
Proof.
  intros E t rest Hwf Hk Hs.
  rewrite Hs, (re_plus_amount_complete t rest Hwf Hk) in E. discriminate.
Qed.

(** The tokens of [¥1,234.50 -￥ 7 ¥1.2.3] *)
Lemma line_grouped_lexed :
  lexed any_token line_grouped
    [ mkToken None [] c_yen [] (lit "1,234.50");
      mkToken (Some c_minus) [] c_yen_full (lit " ") (lit "7");
      mkToken None (lit " ") c_yen [] (lit "1.2.3") ].
Proof.
  apply (lexed_tok any_token (mkToken None [] c_yen [] (lit "1,234.50"))).
  { unfold wf_token; cbn. repeat split; try discriminate; repeat constructor. }
  { exact I. }
  { reflexivity. }
  apply lexed_gap; [apply no_amount_here; reflexivity|].
  apply (lexed_tok any_token (mkToken (Some c_minus) [] c_yen_full (lit " ") (lit "7"))).
  { unfold wf_token; cbn. repeat split; try discriminate; repeat constructor. }
  { exact I. }
  { reflexivity. }
  apply (lexed_tok any_token (mkToken None (lit " ") c_yen [] (lit "1.2.3")) []).
  { unfold wf_token; cbn. repeat split; try discriminate; repeat constructor. }
  { exact I. }
  { exact I. }
  constructor.
Qed.

(** The extractor at work on [¥1,234.50 -￥ 7 ¥1.2.3]: three tokens, two of
    them valid, two amounts; the comma and the sign are dropped, and the
    body [1.2.3] gives no amount. *)
Lemma extract_amounts_tokens_witness :
  extract_amounts line_grouped = [mkDecimal 123450 (-2); mkDecimal 7 0] /\
  List.length (extract_amounts line_grouped) = 2%nat.
Proof.
  exact (extract_amounts_tokens line_grouped _ line_grouped_lexed).
Defined.

(** ** The balance detector *)

(** C7: the detector answers with the third amount of the first line, from
    the top, that holds three amounts or more, and with [None] when no
    line holds that many; on the balance line of the examples the answer
    is 0.00. *)
Theorem detect_current_wallet_balance_spec (lines : list str) :
  match detect_current_wallet_balance lines with
  | Some d =>
      exists pre line post,
        lines = pre ++ line :: post /\
        Forall (fun l => (List.length (extract_amounts l) < 3)%nat) pre /\
        (3 <= List.length (extract_amounts line))%nat /\
        nth_error (extract_amounts line) 2 = Some d
  | None => Forall (fun l => (List.length (extract_amounts l) < 3)%nat) lines
  end /\
  detect_current_wallet_balance [line_balance] = Some (mkDecimal 0 (-2)).
Proof.
  split; [|reflexivity].
  induction lines as [|line rest IH]; cbn [detect_current_wallet_balance].
  - constructor.
  - destruct (Nat.leb_spec 3 (List.length (extract_amounts line))) as [Hge|Hlt].
    + destruct (nth_error (extract_amounts line) 2) as [d|] eqn:E.
      * exists [], line, rest. repeat split; [constructor | assumption | assumption].
      * apply nth_error_None in E. lia.
    + destruct (detect_current_wallet_balance rest) as [d|].
      * destruct IH as (pre & l & post & Hl & Hpre & Hge & Hd).
        exists (line :: pre), l, post. rewrite Hl.
        repeat split; [constructor; assumption | assumption | assumption].
      * constructor; assumption.
Qed.

(** ** Marketplace income *)

Lemma spec_amounts_app (a b : list token) :
  spec_amounts (a ++ b) = spec_amounts a ++ spec_amounts b.
Proof.
  induction a as [|t a IH]; [reflexivity|].
  cbn [app spec_amounts]. destruct (spec_magnitude t); cbn [app]; now rewrite IH.
Qed.

Lemma plus_amounts_tokens (line : str) (ts : list token) :
  lexed plus_token line ts -> plus_amounts line = spec_amounts ts.
Proof.
  intros H. unfold plus_amounts.
  now rewrite (finditer_plus_lexed line ts H), amounts_of_tokens.
Qed.

Lemma market_loop_flat (block : list str) :
  market_loop block = fold_left dec_add (flat_map plus_amounts block) Decimal_0.
Proof.
  unfold market_loop. generalize Decimal_0.
  induction block as [|line rest IH]; intros acc; cbn [fold_left flat_map].
  - reflexivity.
  - now rewrite fold_left_app, IH.
Qed.

Lemma flat_plus_amounts_tokens (block : list str) (tss : list (list token)) :
  Forall2 (lexed plus_token) block tss ->
  flat_map plus_amounts block = spec_amounts (concat tss).
Proof.
  induction 1 as [|line ts rest tss Hl _ IH]; [reflexivity|].
  cbn [flat_map concat].
  now rewrite spec_amounts_app, (plus_amounts_tokens line ts Hl), IH.
Qed.

(** When the sum of two non-negative values fits the precision, the
    context adds them exactly. *)
Lemma dec_add_exact (a b : Decimal) :
  0 <= dcoef a -> 0 <= dcoef b ->
  aligned a (Z.min (dexp a) (dexp b)) + aligned b (Z.min (dexp a) (dexp b))
    < 10 ^ prec ->
  dec_add a b =
  mkDecimal (aligned a (Z.min (dexp a) (dexp b))
             + aligned b (Z.min (dexp a) (dexp b)))
            (Z.min (dexp a) (dexp b)).
Proof.
  intros Ha Hb Hfit. unfold dec_add.
  set (m := Z.min (dexp a) (dexp b)) in *.
  pose proof (aligned_nonneg a m Ha). pose proof (aligned_nonneg b m Hb).
  destruct (Z.eq_dec (aligned a m + aligned b m) 0) as [E|E].
  - rewrite E. reflexivity.
  - destruct (dec_fix_pos (aligned a m + aligned b m) m ltac:(lia))
      as [[_ Hfix] | [Hbig _]]; [exact Hfix | lia].
Qed.

(** *** A sum that fits the precision is exact *)

Lemma aligned_sum_nonneg (ds : list Decimal) (M : Z) :
  Forall (fun d => 0 <= dcoef d) ds ->
  0 <= fold_right (fun d s => aligned d M + s) 0 ds.
Proof.
  induction 1 as [|d ds Hd _ IH]; cbn [fold_right]; [lia|].
  pose proof (aligned_nonneg d M Hd). lia.
Qed.

Lemma fold_add_exact (ds : list Decimal) :
  forall (acc : Decimal) (M : Z),
    0 <= dcoef acc -> Forall (fun d => 0 <= dcoef d) ds ->
    M <= dexp acc -> Forall (fun d => M <= dexp d) ds ->
    aligned acc M + fold_right (fun d s => aligned d M + s) 0 ds < 10 ^ prec ->
    M <= dexp (fold_left dec_add ds acc) /\
    aligned (fold_left dec_add ds acc) M
    = aligned acc M + fold_right (fun d s => aligned d M + s) 0 ds.
Proof.
  induction ds as [|d ds IH]; intros acc M Hacc Hds HM HMs Hfit;
    cbn [fold_left fold_right] in *.
  - split; lia.
  - inversion Hds as [|? ? Hd Hds']; subst.
    inversion HMs as [|? ? HMd HMs']; subst.
    set (m := Z.min (dexp acc) (dexp d)).
    pose proof (aligned_sum_nonneg ds M Hds') as Hrest.
    pose proof (aligned_nonneg acc m Hacc) as Ha.
    pose proof (aligned_nonneg d m Hd) as Hb.
    assert (Hp : 1 <= 10 ^ (m - M)).
    { assert (0 < 10 ^ (m - M)) by (apply Z.pow_pos_nonneg; lia). lia. }
    assert (Ea : aligned acc M = aligned acc m * 10 ^ (m - M))
      by (apply aligned_shift; lia).
    assert (Eb : aligned d M = aligned d m * 10 ^ (m - M))
      by (apply aligned_shift; lia).
    assert (Hsum : aligned acc m + aligned d m < 10 ^ prec) by nia.
    rewrite (dec_add_exact acc d Hacc Hd Hsum). fold m.
    assert (E : aligned (mkDecimal (aligned acc m + aligned d m) m) M
                = aligned acc M + aligned d M).
    { unfold aligned at 1. cbn [dcoef dexp]. rewrite Ea, Eb. ring. }
    destruct (IH (mkDecimal (aligned acc m + aligned d m) m) M) as [H1 H2];
      cbn [dcoef dexp]; try assumption; lia.
Qed.

(** The rational a [Decimal] stands for, in units of [10 ^ M] *)
Lemma value_of_aligned (d : Decimal) (M : Z) :
  M <= dexp d -> (value_of d == inject_Z (aligned d M) * 10 ^ M)%Q.
Proof.
  intros H. unfold value_of, aligned.
  rewrite inject_Z_mult, Zpower_Qpower by lia.
  rewrite <- Qmult_assoc, <- Qpower_plus by discriminate.
  replace (dexp d - M + M) with (dexp d) by lia. reflexivity.
Qed.

Lemma exact_sum_aligned (ds : list Decimal) (M : Z) :
  Forall (fun d => M <= dexp d) ds ->
  (exact_sum ds
   == inject_Z (fold_right (fun d s => aligned d M + s)%Z 0%Z ds) * 10 ^ M)%Q.
Proof.
  induction 1 as [|d ds Hd _ IH]; cbn [exact_sum fold_right].
  - now rewrite Qmult_0_l.
  - fold (exact_sum ds).
    rewrite inject_Z_plus, Qmult_plus_distr_l, <- (value_of_aligned d M Hd), <- IH.
    reflexivity.
Qed.

Lemma most_decimals_bound (ds : list Decimal) :
  0 <= most_decimals ds /\
  Forall (fun d => - most_decimals ds <= dexp d) ds.
Proof.
  induction ds as [|d ds [IH1 IH2]]; cbn [most_decimals fold_right].
  - split; [lia | constructor].
  - fold (most_decimals ds). split; [lia|].
    constructor; [lia|]. eapply Forall_impl; [|exact IH2].
    cbn beta. intros a Ha. lia.
Qed.

(** Amounts whose exact sum can be written with twelve digits are added
    up without any rounding. *)
Lemma fold_add_exact_sum (ds : list Decimal) :
  Forall (fun d => 0 <= dcoef d) ds ->
  fits_twelve_digits ds ->
  (value_of (fold_left dec_add ds Decimal_0) == exact_sum ds)%Q.
Proof.
  intros Hds Hfit. unfold fits_twelve_digits in Hfit.
  destruct (most_decimals_bound ds) as [Hp HM].
  set (M := - most_decimals ds) in *.
  pose proof (exact_sum_aligned ds M HM) as Hsum.
  set (total := fold_right (fun d s => aligned d M + s) 0 ds) in *.
  assert (HS : total < 10 ^ prec).
  { rewrite Hsum in Hfit.
    replace (12 - most_decimals ds) with (12 + M) in Hfit by (unfold M; lia).
    rewrite Qpower_plus in Hfit by discriminate.
    apply Qmult_lt_r in Hfit; [|now apply Qpower_0_lt].
    rewrite <- (Zpower_Qpower 10 12) in Hfit by lia.
    rewrite <- Zlt_Qlt in Hfit. exact Hfit. }
  destruct (fold_add_exact ds Decimal_0 M) as [H1 H2];
    try assumption; cbn [dcoef dexp Decimal_0]; try lia.
  rewrite (value_of_aligned _ M H1), H2, Hsum.
  unfold aligned at 1. cbn [dcoef Decimal_0]. fold total.
  now rewrite Z.mul_0_l, Z.add_0_l.
Qed.

(** C5: in a marketplace block whose amounts with a leading plus sign have
    an exact sum that can be written with twelve digits, the marketplace
    income is that sum: the sum of the magnitudes of the valid tokens with
    a leading plus sign on the lines of the block.  In a block that is no
    marketplace block the income is zero.  The block of the example gives
    income 128.00 and external spend 0. *)
Theorem market_income_plus_tokens (block : list str) (tss : list (list token)) :
  Forall2 (lexed plus_token) block tss ->
  (is_market_block block = true ->
   fits_twelve_digits (spec_amounts (concat tss))) ->
  (if is_market_block block
   then (value_of (snd (calc_external_for_block block))
         == exact_sum (spec_amounts (concat tss)))%Q
   else snd (calc_external_for_block block) = Decimal_0) /\
  calc_external_for_block block_market = (Decimal_0, mkDecimal 12800 (-2)).
Proof.
  intros H Hfit. split; [|reflexivity].
  unfold calc_external_for_block; cbn [snd].
  destruct (is_market_block block); [|reflexivity].
  rewrite market_loop_flat, (flat_plus_amounts_tokens block tss H).
  apply fold_add_exact_sum; [|now apply Hfit].
  rewrite <- (flat_plus_amounts_tokens block tss H).
  apply Forall_flat_map, Forall_forall. intros l _. apply amounts_of_nonneg.
Qed.

Lemma block_market_grouped_lexed :
  Forall2 (lexed plus_token) block_market_grouped
    [ []; [];
      [mkToken (Some c_plus) [] c_yen [] (lit "1,234.50")];
      [mkToken (Some c_plus) (lit " ") c_yen_full [] (lit "0.5")];
      [mkToken (Some c_plus) [] c_yen [] (lit "1.2.3")] ].
Proof.
  apply Forall2_cons; [|apply Forall2_cons; [|apply Forall2_cons;
    [|apply Forall2_cons; [|apply Forall2_cons; [|apply Forall2_nil]]]]].
  - unfold s_market; cbn. pass_gaps no_plus_amount_here. apply lexed_nil.
  - unfold s_funds. pass_gaps no_plus_amount_here. apply lexed_nil.
  - apply (lexed_tok plus_token (mkToken (Some c_plus) [] c_yen [] (lit "1,234.50")) []).
    + unfold wf_token; cbn. repeat split; try discriminate; repeat constructor.
    + reflexivity.
    + exact I.
    + constructor.
  - apply (lexed_tok plus_token
             (mkToken (Some c_plus) (lit " ") c_yen_full [] (lit "0.5")) []).
    + unfold wf_token; cbn. repeat split; try discriminate; repeat constructor.
    + reflexivity.
    + exact I.
    + constructor.
  - apply (lexed_tok plus_token (mkToken (Some c_plus) [] c_yen [] (lit "1.2.3")) []).
    + unfold wf_token; cbn. repeat split; try discriminate; repeat constructor.
    + reflexivity.
    + exact I.
    + constructor.
Qed.

(** The block with [+¥1,234.50], [+ ￥0.5] and [+¥1.2.3]: the income is
    1235, the last body being no number. *)
Lemma market_income_plus_tokens_witness :
  (value_of (snd (calc_external_for_block block_market_grouped)) == 1235)%Q /\
  calc_external_for_block block_market = (Decimal_0, mkDecimal 12800 (-2)).
Proof.
  destruct (market_income_plus_tokens block_market_grouped _
              block_market_grouped_lexed) as [H1 H2].
  - intros _. reflexivity.
  - split; [|exact H2].
    assert (E : is_market_block block_market_grouped = true) by reflexivity.
    rewrite E in H1. rewrite H1. vm_compute. reflexivity.
Defined.

Lemma block_market_thirteen_lexed :
  Forall2 (lexed plus_token) block_market_thirteen
    [ []; [];
      [mkToken (Some c_plus) [] c_yen [] (lit "9999999999.99")];
      [mkToken (Some c_plus) [] c_yen [] (lit "0.02")];
      [mkToken (Some c_plus) [] c_yen [] (lit "0.04")] ].
Proof.
  apply Forall2_cons; [|apply Forall2_cons; [|apply Forall2_cons;
    [|apply Forall2_cons; [|apply Forall2_cons; [|apply Forall2_nil]]]]].
  - unfold s_market; cbn. pass_gaps no_plus_amount_here. apply lexed_nil.
  - unfold s_funds. pass_gaps no_plus_amount_here. apply lexed_nil.
  - apply (lexed_tok plus_token
             (mkToken (Some c_plus) [] c_yen [] (lit "9999999999.99")) []).
    + unfold wf_token; cbn. repeat split; try discriminate; repeat constructor.
    + reflexivity.
    + exact I.
    + constructor.
  - apply (lexed_tok plus_token (mkToken (Some c_plus) [] c_yen [] (lit "0.02")) []).
    + unfold wf_token; cbn. repeat split; try discriminate; repeat constructor.
    + reflexivity.
    + exact I.
    + constructor.
  - apply (lexed_tok plus_token (mkToken (Some c_plus) [] c_yen [] (lit "0.04")) []).
    + unfold wf_token; cbn. repeat split; try discriminate; repeat constructor.
    + reflexivity.
    + exact I.
    + constructor.
Qed.

(** The claim without the clause on twelve digits fails: the amounts
    [+¥9999999999.99], [+¥0.02] and [+¥0.04] of a marketplace block add up
    to 10000000000.05, and the income is 10000000000.0: each addition is
    rounded to twelve digits. *)
Lemma market_income_rounding_counterexample :
  snd (calc_external_for_block block_market_thirteen)
  = mkDecimal 100000000000 (-1) /\
  ~ (forall block tss,
       Forall2 (lexed plus_token) block tss ->
       is_market_block block = true ->
       (value_of (snd (calc_external_for_block block))
        == exact_sum (spec_amounts (concat tss)))%Q).
Proof.
  split; [reflexivity|]. intros H.
  specialize (H block_market_thirteen _ block_market_thirteen_lexed eq_refl).
  vm_compute in H. discriminate H.
Qed.

(** C10: a block with no line where a plus sign stands right before a
    glyph is no marketplace block and has no marketplace income, though
    the scan that adds the income up lets whitespace stand between the
    sign and the glyph: it reads 128.00 on [+ ¥128.00], and would add it
    up on the block of the example. *)
Theorem spaced_plus_not_market (block : list str) :
  (forall l, In l block ->
     ~ occurs_in s_plus_yen l /\ ~ occurs_in s_plus_yen_full l) ->
  is_market_block block = false /\
  snd (calc_external_for_block block) = Decimal_0 /\
  plus_amounts line_plus_spaced = [mkDecimal 12800 (-2)] /\
  market_loop block_market_spaced = mkDecimal 12800 (-2).
Proof.
  intros H.
  assert (Hm : is_market_block block = false).
  { unfold is_market_block.
    replace (existsb (fun l => contains s_plus_yen l || contains s_plus_yen_full l) block)
      with false; [apply andb_false_r|].
    symmetry. apply not_true_is_false. intros E.
    apply existsb_exists in E. destruct E as [l [Hin Hl]].
    destruct (H l Hin) as [H1 H2].
    apply orb_true_iff in Hl. destruct Hl as [Hl|Hl]; apply contains_spec in Hl; tauto. }
  split; [exact Hm|]. split; [|split; reflexivity].
  unfold calc_external_for_block; cbn [snd]. now rewrite Hm.
Qed.

Lemma spaced_plus_not_market_witness :
  is_market_block block_market_spaced = false /\
  snd (calc_external_for_block block_market_spaced) = Decimal_0 /\
  plus_amounts line_plus_spaced = [mkDecimal 12800 (-2)] /\
  market_loop block_market_spaced = mkDecimal 12800 (-2).
Proof.
  apply (spaced_plus_not_market block_market_spaced).
  intros l Hin. rewrite <- !contains_false.
  repeat (destruct Hin as [<- | Hin]; [split; reflexivity|]). destruct Hin.
Defined.

(** ** External spend: the glyph tests of steps 1 and 2 *)

(** Steps 1 and 2 test for the half-width glyph only: a block with a
    payment keyword and an amount written with the full-width glyph gets no
    external spend, on one line (step 1) or on two (step 2), though the
    block is an external-payment block and the extractor reads 59.00 on
    the line; with the half-width glyph the same blocks give 59.00. *)
Lemma external_full_width_glyph_missed :
  has_external_method [line_alipay_full] = true /\
  extract_amounts line_alipay_full = [mkDecimal 5900 (-2)] /\
  calc_external_for_block [line_alipay_full] = (Decimal_0, Decimal_0) /\
  calc_external_for_block [line_alipay_half] = (mkDecimal 5900 (-2), Decimal_0) /\
  calc_external_for_block [s_alipay; [c_yen_full] ++ lit "59.00"]
    = (Decimal_0, Decimal_0) /\
  calc_external_for_block [s_alipay; [c_yen] ++ lit "59.00"]
    = (mkDecimal 5900 (-2), Decimal_0).
Proof. repeat split; reflexivity. Qed.

(** ** The formatter *)

Lemma dropwhile_idem (p : char -> bool) (s : str) :
  dropwhile p (dropwhile p s) = dropwhile p s.
Proof.
  induction s as [|c s IH]; simpl; [reflexivity|].
  destruct (p c) eqn:E; [exact IH|]. simpl. now rewrite E.
Qed.

Lemma dropwhile_nil (p : char -> bool) (s : str) :
  dropwhile p s = [] <-> Forall (fun c => p c = true) s.
Proof.
  induction s as [|c s IH]; simpl.
  - split; [constructor | reflexivity].
  - destruct (p c) eqn:E.
    + rewrite IH. split; [now constructor | now inversion 1].
    + split; [discriminate | inversion 1; congruence].
Qed.

Lemma dropwhile_snoc (p : char -> bool) (s : str) (c : char) :
  p c = false -> dropwhile p (s ++ [c]) = dropwhile p s ++ [c].
Proof.
  intros Hc. induction s as [|d s IH]; simpl.
  - now rewrite Hc.
  - destruct (p d); [exact IH | reflexivity].
Qed.

Lemma rstrip_idem (s : str) : rstrip (rstrip s) = rstrip s.
Proof. unfold rstrip. now rewrite rev_involutive, dropwhile_idem. Qed.

(** A line with no whitespace at its end *)
Lemma rstrip_fixed (s : str) :
  rstrip s = s <-> dropwhile isspace (rev s) = rev s.
Proof.
  unfold rstrip. split; intros H.
  - rewrite <- H at 2. now rewrite rev_involutive.
  - now rewrite H, rev_involutive.
Qed.

Lemma rstrip_app (a b : str) :
  b <> [] -> rstrip b = b -> rstrip (a ++ b) = a ++ b.
Proof.
  intros Hne Hb. apply rstrip_fixed in Hb. apply rstrip_fixed.
  rewrite rev_app_distr.
  destruct (rev b) as [|c r] eqn:E.
  - apply (f_equal (@rev char)) in E. rewrite rev_involutive in E. contradiction.
  - pose proof (dropwhile_head isspace (c :: r) c r Hb) as Hc.
    cbn [app]. now apply dropwhile_stop.
Qed.

Lemma rstrip_cons (c : char) (s : str) :
  isspace c = false -> rstrip (c :: s) = c :: rstrip s.
Proof.
  intros Hc. unfold rstrip. cbn [rev].
  rewrite dropwhile_snoc by assumption. now rewrite rev_app_distr.
Qed.

Lemma lstrip_head (s : str) :
  match lstrip s with c :: _ => isspace c = false | [] => True end.
Proof. apply dropwhile_ends. Qed.

Lemma strip_tidy (s : str) : rstrip (strip s) = strip s.
Proof. unfold strip. apply rstrip_idem. Qed.

Lemma strip_head (s : str) :
  match strip s with c :: _ => isspace c = false | [] => True end.
Proof.
  unfold strip. pose proof (lstrip_head s) as H.
  destruct (lstrip s) as [|c r]; [exact I|].
  now rewrite rstrip_cons.
Qed.

Lemma strip_idem (s : str) : strip (strip s) = strip s.
Proof.
  unfold strip at 1. pose proof (strip_head s) as H.
  replace (lstrip (strip s)) with (strip s); [apply strip_tidy|].
  unfold lstrip. destruct (strip s) as [|c r]; [reflexivity|].
  now rewrite dropwhile_stop.
Qed.





Lemma join_tidy (sep : str) (parts : list str) :
  Forall (fun p => p <> [] /\ rstrip p = p) parts ->
  rstrip (join sep parts) = join sep parts /\
  (parts <> [] -> join sep parts <> []).
Proof.
  induction 1 as [|p ps [Hne Hp] Hps [IH1 IH2]].
  - split; [reflexivity | intros E; now destruct E].
  - cbn [join]. destruct ps as [|q ps'].
    + split; [exact Hp | intros _; exact Hne].
    + split.
      * rewrite !app_assoc. apply rstrip_app; [apply IH2; discriminate | exact IH1].
      * intros _ E. apply app_eq_nil in E. destruct E as [E _]. contradiction.
Qed.

(** Every line [prettify_line] makes has no whitespace at its end. *)
Lemma prettify_line_tidy (text : str) :
  rstrip (prettify_line text) = prettify_line text.
Proof.
  unfold prettify_line.
  destruct (nonempty (strip text)) eqn:Hne; cbn [negb]; [|reflexivity].
  destruct (contains [c_tab] text).
  - apply join_tidy. apply Forall_forall. intros p Hin.
    apply filter_In in Hin. destruct Hin as [Hin Hp].
    split; [now apply nonempty_true|].
    apply in_map_iff in Hin. destruct Hin as [x [<- _]]. apply strip_tidy.
  - destruct (existsb (str_eqb (strip text)) keywords).
    + apply rstrip_app; [now apply nonempty_true | apply strip_tidy].
    + apply rstrip_idem.
Qed.

Lemma format_loop_tidy (lines : list str) :
  forall out_lines fcw,
    Forall (fun l => rstrip l = l) out_lines ->
    Forall (fun l => rstrip l = l) (format_loop lines out_lines fcw).
Proof.
  induction lines as [|raw rest IH]; intros out fcw Hout; cbn [format_loop];
    [assumption|].
  destruct (is_date_line _).
  - apply IH. apply Forall_app. split.
    + destruct fcw; [|assumption]. apply Forall_app. split; [assumption|].
      repeat constructor.
    + constructor; [apply prettify_line_tidy | constructor].
  - destruct (negb _); apply IH; apply Forall_app; (split; [assumption|]);
      (constructor; [|constructor]); [reflexivity | apply prettify_line_tidy].
Qed.

(** ** The figures of the report *)

Lemma round_half_even_nearest (n k : Z) :
  0 <= n -> 0 < k ->
  Z.abs (2 * n - 2 * round_half_even n k * 10 ^ k) <= 10 ^ k /\
  (Z.abs (2 * n - 2 * round_half_even n k * 10 ^ k) = 10 ^ k ->
   Z.even (round_half_even n k) = true).
Proof.
  intros Hn Hk. unfold round_half_even.
  assert (Hu : 10 ^ k = 2 * (5 * 10 ^ (k - 1))).
  { replace k with (k - 1 + 1) at 1 by lia. rewrite pow10_succ by lia. lia. }
  assert (Hh : 0 < 5 * 10 ^ (k - 1)).
  { pose proof (pow10_pos (k - 1) ltac:(lia)). lia. }
  set (half := 5 * 10 ^ (k - 1)) in *.
  pose proof (Z.div_mod n (10 ^ k) ltac:(lia)) as Hdm.
  pose proof (Z.mod_pos_bound n (10 ^ k) ltac:(lia)) as Hr.
  set (q := n / 10 ^ k) in *. set (r := n mod 10 ^ k) in *.
  rewrite Hu in *.
  destruct (Z.ltb_spec half r) as [Hgt|Hle]; cbn [orb].
  - split; [nia|]. intros E. exfalso. nia.
  - destruct (Z.eqb_spec r half) as [Heq|Hne]; cbn [andb].
    + destruct (Z.odd q) eqn:Eo.
      * split; [nia|]. intros _. rewrite Z.even_add, <- Z.negb_odd, Eo. reflexivity.
      * split; [nia|]. intros _. now rewrite <- Z.negb_odd, Eo.
    + split; [nia|]. intros E. exfalso. nia.
Qed.

Lemma dec_fix_small (c e : Z) :
  0 <= c < 10 ^ prec -> dec_fix (mkDecimal c e) = mkDecimal c e.
Proof.
  intros H. destruct (Z.eq_dec c 0) as [->|Hnz]; [reflexivity|].
  destruct (dec_fix_pos c e ltac:(lia)) as [[_ Hfix] | [Hbig _]]; [exact Hfix | lia].
Qed.

Lemma ndigits_fits (n : Z) : 0 <= n -> (prec <? ndigits n) = false -> n < 10 ^ prec.
Proof.
  intros Hn H. apply Z.ltb_ge in H.
  destruct (Z.eq_dec n 0) as [->|Hnz]; [now compute|].
  apply ndigits_le_prec; lia.
Qed.

(** [quantize] gives the cents nearest to its argument, or raises. *)
Lemma quantize_cents_spec (d q : Decimal) :
  0 <= dcoef d -> quantize_cents d = Some q ->
  dexp q = -2 /\ 0 <= dcoef q < 10 ^ prec /\ rounds_to_cents d (dcoef q).
Proof.
  intros Hd. unfold quantize_cents, rounds_to_cents.
  destruct (Z.eqb_spec (dcoef d) 0) as [Hz|Hnz].
  - intros [= <-]. cbn [dcoef dexp]. unfold aligned. rewrite Hz.
    pose proof (pow10_pos (-2 - Z.min (dexp d) (-2)) ltac:(lia)).
    set (u := 10 ^ (-2 - Z.min (dexp d) (-2))) in *.
    set (a := 10 ^ (dexp d - Z.min (dexp d) (-2))).
    replace (2 * (0 * a) - 2 * 0 * u) with 0 by ring.
    split; [reflexivity|]. split; [now compute|]. split; [simpl; lia|].
    intros E. exfalso. simpl in E. lia.
  - destruct (prec <? _); [discriminate|].
    unfold rescale. replace (dcoef d =? 0) with false by (symmetry; now apply Z.eqb_neq).
    rewrite (Z.abs_eq (dcoef d)) by lia. rewrite (Z.sgn_pos (dcoef d)) by lia.
    destruct (Z.leb_spec (-2) (dexp d)) as [Hge|Hlt]; cbn [dcoef dexp].
    + pose proof (aligned_nonneg d (-2) Hd) as Hnn.
      rewrite (Z.abs_eq _ Hnn).
      destruct (prec <? ndigits (aligned d (-2))) eqn:Hfit; [discriminate|].
      apply ndigits_fits in Hfit; [|assumption].
      rewrite dec_fix_small by lia. intros [= <-]. cbn [dcoef dexp].
      rewrite Z.min_r by lia. replace (-2 - -2) with 0 by lia. change (10 ^ 0) with 1.
      split; [reflexivity|]. split; [lia|]. split; [lia|]. intros E; exfalso; lia.
    + pose proof (round_half_even_bounds (dcoef d) (-2 - dexp d) Hd ltac:(lia)) as Hb.
      pose proof (round_half_even_nearest (dcoef d) (-2 - dexp d) Hd ltac:(lia)) as Hr.
      set (n := round_half_even (dcoef d) (-2 - dexp d)) in *.
      assert (Hn : 0 <= n).
      { apply Z.le_trans with (dcoef d / 10 ^ (-2 - dexp d)); [|apply Hb].
        apply Z.div_pos; [assumption | apply pow10_pos; lia]. }
      replace (1 * n) with n by lia. rewrite (Z.abs_eq n Hn).
      destruct (prec <? ndigits n) eqn:Hfit; [discriminate|].
      apply ndigits_fits in Hfit; [|assumption].
      rewrite dec_fix_small by lia. intros [= <-]. cbn [dcoef dexp].
      rewrite Z.min_l by lia. unfold aligned.
      rewrite Z.sub_diag. change (10 ^ 0) with 1. rewrite Z.mul_1_r.
      split; [reflexivity|]. split; [lia|]. exact Hr.
Qed.

(** The sum of two figures in cents is quantized to itself, or the
    [quantize] raises. *)
Lemma quantize_cents_sum (a b : Z) (q : Decimal) :
  0 <= a < 10 ^ prec -> 0 <= b < 10 ^ prec ->
  quantize_cents (dec_add (mkDecimal a (-2)) (mkDecimal b (-2))) = Some q ->
  q = mkDecimal (a + b) (-2).
Proof.
  intros Ha Hb. unfold dec_add. cbn [dcoef dexp]. rewrite Z.min_id.
  unfold aligned; cbn [dcoef dexp]. rewrite Z.sub_diag. change (10 ^ 0) with 1.
  rewrite !Z.mul_1_r.
  destruct (Z.lt_ge_cases (a + b) (10 ^ prec)) as [Hfit|Hbig].
  - rewrite dec_fix_small by lia. unfold quantize_cents; cbn [dcoef dexp].
    destruct (Z.eqb_spec (a + b) 0) as [E|E]; [rewrite E; now intros [= <-]|].
    rewrite (Z.abs_eq (a + b)) by lia.
    replace (ndigits (a + b) + -2 - 1 - -2 + 1) with (ndigits (a + b)) by lia.
    assert (Hnd : (prec <? ndigits (a + b)) = false).
    { apply Z.ltb_ge. apply ndigits_le_prec; lia. }
    rewrite Hnd. unfold rescale; cbn [dcoef dexp].
    replace (a + b =? 0) with false by (symmetry; now apply Z.eqb_neq).
    cbn [Z.leb Z.compare Pos.compare Pos.compare_cont CompOpp].
    unfold aligned; cbn [dcoef dexp]. rewrite Z.sub_diag. change (10 ^ 0) with 1.
    rewrite Z.mul_1_r, (Z.abs_eq (a + b)) by lia. rewrite Hnd.
    rewrite dec_fix_small by lia. now intros [= <-].
  - destruct (dec_fix_pos (a + b) (-2) ltac:(lia)) as [[Hc _] | [_ Hex]]; [lia|].
    destruct Hex as (k & r & Hk & _ & _ & Hdlo & Hr & _ & Hexp & Hcoef & Hval).
    set (f := dec_fix (mkDecimal (a + b) (-2))) in *.
    unfold quantize_cents.
    replace (dcoef f =? 0) with false by (symmetry; apply Z.eqb_neq; lia).
    rewrite (Z.abs_eq (dcoef f)) by lia.
    replace (prec <? ndigits (dcoef f) + dexp f - 1 - -2 + 1) with true;
      [discriminate|].
    symmetry. apply Z.ltb_lt.
    destruct (ndigits_spec (dcoef f) ltac:(lia)) as [Hn1 [_ Hhi]].
    assert (Hp : 0 < 10 ^ (dexp f - (-2 + k))) by (apply pow10_pos; lia).
    assert (Hlt : 10 ^ (prec - 1) < 10 ^ (ndigits (dcoef f) + (dexp f - (-2 + k)))).
    { rewrite pow10_split by lia. nia. }
    apply Z.pow_lt_mono_r_iff in Hlt; lia.
Qed.

(** C4: when [main] has its three figures, the marketplace cost is the
    product of the marketplace total and 0.9, taken to the context's 12
    significant digits and then rounded half-even to cents; the direct
    spend is the external total rounded half-even to cents; the total cost
    is their sum, which the last rounding leaves as it is.  The product is
    exact when it fits 12 digits.  Totals 100.00 and 50.00 give 145.00. *)
Theorem report_figures (total_external total_market_income : Decimal) (r : Report) :
  0 <= dcoef total_external -> 0 <= dcoef total_market_income ->
  report total_external total_market_income = Some r ->
  (dexp (cost_from_market r) = -2 /\
   rounds_to_cents (dec_mul total_market_income Decimal_0_9)
                   (dcoef (cost_from_market r))) /\
  (dexp (direct_external r) = -2 /\
   rounds_to_cents total_external (dcoef (direct_external r))) /\
  total_cost r
  = mkDecimal (dcoef (direct_external r) + dcoef (cost_from_market r)) (-2) /\
  (dcoef total_market_income * 9 < 10 ^ prec ->
   dec_mul total_market_income Decimal_0_9
   = exact_mul total_market_income Decimal_0_9) /\
  report (mkDecimal 10000 (-2)) (mkDecimal 5000 (-2))
  = Some (mkReport (mkDecimal 4500 (-2)) (mkDecimal 10000 (-2))
                   (mkDecimal 14500 (-2))).
Proof.
  intros Hte Htm. unfold report, bind.
  destruct (quantize_cents (dec_mul total_market_income Decimal_0_9))
    as [cfm|] eqn:Ecfm; [|discriminate].
  destruct (quantize_cents total_external) as [de|] eqn:Ede; [|discriminate].
  destruct (quantize_cents (dec_add de cfm)) as [tc|] eqn:Etc; [|discriminate].
  intros [= <-]. cbn [cost_from_market direct_external total_cost].
  assert (Hprod : 0 <= dcoef (dec_mul total_market_income Decimal_0_9)).
  { unfold dec_mul. apply dec_fix_nonneg. cbn [dcoef Decimal_0_9]. lia. }
  destruct (quantize_cents_spec _ _ Hprod Ecfm) as (Hc1 & Hc2 & Hc3).
  destruct (quantize_cents_spec _ _ Hte Ede) as (Hd1 & Hd2 & Hd3).
  split; [now split|]. split; [now split|]. split; [|split; [|reflexivity]].
  - destruct de as [a ea], cfm as [b eb]; cbn [dcoef dexp] in *. subst ea eb.
    now apply quantize_cents_sum.
  - intros Hfit. unfold dec_mul, exact_mul. cbn [dcoef dexp Decimal_0_9].
    apply dec_fix_small. lia.
Qed.

Lemma report_figures_witness :
  (dexp (mkDecimal 4500 (-2)) = -2 /\
   rounds_to_cents (dec_mul (mkDecimal 5000 (-2)) Decimal_0_9) 4500) /\
  (dexp (mkDecimal 10000 (-2)) = -2 /\
   rounds_to_cents (mkDecimal 10000 (-2)) 10000) /\
  mkDecimal 14500 (-2) = mkDecimal (10000 + 4500) (-2) /\
  (5000 * 9 < 10 ^ prec ->
   dec_mul (mkDecimal 5000 (-2)) Decimal_0_9
   = exact_mul (mkDecimal 5000 (-2)) Decimal_0_9) /\
  report (mkDecimal 10000 (-2)) (mkDecimal 5000 (-2))
  = Some (mkReport (mkDecimal 4500 (-2)) (mkDecimal 10000 (-2))
                   (mkDecimal 14500 (-2))).
Proof.
  apply (report_figures (mkDecimal 10000 (-2)) (mkDecimal 5000 (-2))
           (mkReport (mkDecimal 4500 (-2)) (mkDecimal 10000 (-2))
                     (mkDecimal 14500 (-2)))).
  - simpl; lia.
  - simpl; lia.
  - reflexivity.
Defined.

(** The marketplace cost is not always the exact product rounded to cents:
    the one amount 1.30555555555 is a total of 12 digits, its product with
    0.9 is 1.174999999995, of 13 digits, which the context rounds to 1.175
    before [quantize] rounds that to 1.18; the exact product is nearest to
    1.17. *)
Lemma report_double_rounding_counterexample :
  ~ (forall total_external total_market_income r,
       0 <= dcoef total_external -> 0 <= dcoef total_market_income ->
       report total_external total_market_income = Some r ->
       rounds_to_cents (exact_mul total_market_income Decimal_0_9)
                       (dcoef (cost_from_market r))).
Proof.
  intros H.
  specialize (H (fst (totals_of [block_twelve_digits]))
                (snd (totals_of [block_twelve_digits]))
                (mkReport (mkDecimal 118 (-2)) (mkDecimal 0 (-2))
                          (mkDecimal 118 (-2)))).
  assert (Ht : totals_of [block_twelve_digits]
               = (Decimal_0, mkDecimal 130555555555 (-11))) by reflexivity.
  rewrite Ht in H. cbn [fst snd] in H.
  specialize (H ltac:(simpl; lia) ltac:(simpl; lia) eq_refl).
  destruct H as [H _]. vm_compute in H. apply H. reflexivity.
Qed.

(** The classifier does not look for tokens: the block with the line
    [+ ¥128.00] holds the marketplace phrase, the funds marker and a token
    with a plus sign, and is no marketplace block. *)
Lemma is_market_block_token_counterexample :
  ~ (forall block,
       is_market_block block = true <->
       (exists l, In l block /\ occurs_in s_market l) /\
       (exists l, In l block /\ occurs_in s_funds l) /\
       (exists l, In l block /\ holds_token plus_token l)).
Proof.
  intros H. specialize (H block_market_spaced).
  assert (Hrhs : is_market_block block_market_spaced = true).
  { apply H. split; [|split].
    - exists s_market. split; [simpl; auto | exists [], []; now rewrite app_nil_r].
    - exists s_funds. split; [simpl; auto | exists [], []; now rewrite app_nil_r].
    - exists line_plus_spaced. split; [simpl; auto|].
      exists (mkToken (Some c_plus) (lit " ") c_yen [] (lit "128.00")), [], [].
      split; [|split; reflexivity].
      unfold wf_token; cbn. repeat split; try discriminate; repeat constructor. }
  discriminate Hrhs.
Qed.

(** ** Values and their representations *)

Lemma dec_eqb_at (a b : Decimal) (m : Z) :
  m <= dexp a -> m <= dexp b ->
  (dec_eqb a b = true <-> aligned a m = aligned b m).
Proof.
  intros Ha Hb. unfold dec_eqb, dec_compare.
  set (m0 := Z.min (dexp a) (dexp b)).
  rewrite (aligned_shift a m m0), (aligned_shift b m m0) by lia.
  assert (Hp : 0 < 10 ^ (m0 - m)) by (apply pow10_pos; lia).
  destruct (Z.compare_spec (aligned a m0) (aligned b m0)); simpl;
    split; intros; try discriminate; try reflexivity; nia.
Qed.

Lemma dec_is_zero_iff (d : Decimal) : dec_is_zero d = true <-> dcoef d = 0.
Proof.
  unfold dec_is_zero.
  rewrite (dec_eqb_at d Decimal_0 (Z.min (dexp d) 0)) by (simpl; lia).
  unfold aligned; cbn [dcoef dexp Decimal_0].
  assert (0 < 10 ^ (dexp d - Z.min (dexp d) 0)) by (apply pow10_pos; lia).
  split; intros; nia.
Qed.

Lemma ndigits_unique (x n : Z) :
  0 < x -> 10 ^ (n - 1) <= x < 10 ^ n -> ndigits x = n.
Proof.
  intros Hx [Hlo Hhi]. destruct (ndigits_spec x Hx) as [H1 [Hl Hh]].
  assert (Hn : 1 <= n).
  { destruct (Z.le_gt_cases 1 n) as [|Hn0]; [assumption|].
    destruct (Z.eq_dec n 0) as [->|Hneg].
    - change (10 ^ 0) with 1 in Hhi. lia.
    - rewrite Z.pow_neg_r in Hhi by lia. lia. }
  destruct (Z.lt_trichotomy (ndigits x) n) as [Hlt | [Heq | Hgt]]; [|assumption|].
  - assert (10 ^ ndigits x <= 10 ^ (n - 1)) by (apply pow10_le; lia). lia.
  - assert (10 ^ n <= 10 ^ (ndigits x - 1)) by (apply pow10_le; lia). lia.
Qed.

Lemma ndigits_scale (c j : Z) :
  0 < c -> 0 <= j -> ndigits (c * 10 ^ j) = ndigits c + j.
Proof.
  intros Hc Hj. destruct (ndigits_spec c Hc) as [H1 [Hl Hh]].
  assert (Hp : 0 < 10 ^ j) by (apply pow10_pos; lia).
  apply ndigits_unique; [nia|].
  replace (ndigits c + j - 1) with (ndigits c - 1 + j) by lia.
  rewrite !pow10_split by lia. nia.
Qed.

(** Zeros at the end of the coefficient round away as they are. *)
Lemma round_half_even_exact (c j k : Z) :
  0 <= c -> 0 < k <= j ->
  round_half_even (c * 10 ^ j) k = c * 10 ^ (j - k).
Proof.
  intros Hc Hk. unfold round_half_even.
  assert (Hs : c * 10 ^ j = c * 10 ^ (j - k) * 10 ^ k).
  { replace j with (j - k + k) at 1 by lia. rewrite pow10_split by lia. ring. }
  assert (Hp : 0 < 10 ^ k) by (apply pow10_pos; lia).
  rewrite Hs, Z.div_mul, Z.mod_mul by lia.
  assert (Hh : 0 < 5 * 10 ^ (k - 1)).
  { pose proof (pow10_pos (k - 1) ltac:(lia)). lia. }
  destruct (Z.ltb_spec (5 * 10 ^ (k - 1)) 0); [lia|].
  destruct (Z.eqb_spec 0 (5 * 10 ^ (k - 1))); [lia|]. reflexivity.
Qed.

(** Zeros put at the end of the coefficient do not change the rounding. *)
Lemma round_half_even_scale (c j k : Z) :
  0 <= c -> 0 < k -> 0 <= j ->
  round_half_even (c * 10 ^ j) (k + j) = round_half_even c k.
Proof.
  intros Hc Hk Hj. unfold round_half_even.
  assert (Hpj : 0 < 10 ^ j) by (apply pow10_pos; lia).
  assert (Hpk : 0 < 10 ^ k) by (apply pow10_pos; lia).
  rewrite (pow10_split k j) by lia.
  rewrite Z.div_mul_cancel_r by lia.
  rewrite Z.mul_mod_distr_r by lia.
  replace (k + j - 1) with (k - 1 + j) by lia. rewrite pow10_split by lia.
  set (h := 5 * 10 ^ (k - 1)).
  replace (5 * (10 ^ (k - 1) * 10 ^ j)) with (h * 10 ^ j) by (unfold h; ring).
  set (r := c mod 10 ^ k).
  replace (h * 10 ^ j <? r * 10 ^ j) with (h <? r).
  - replace (r * 10 ^ j =? h * 10 ^ j) with (r =? h); [reflexivity|].
    destruct (Z.eqb_spec r h), (Z.eqb_spec (r * 10 ^ j) (h * 10 ^ j));
      try reflexivity; exfalso; nia.
  - destruct (Z.ltb_spec h r), (Z.ltb_spec (h * 10 ^ j) (r * 10 ^ j));
      try reflexivity; exfalso; nia.
Qed.

(** The rounding to the precision depends on the value only, not on how
    the value is written. *)
Lemma dec_fix_scale (c e j : Z) :
  0 <= c -> 0 <= j ->
  dec_eqb (dec_fix (mkDecimal (c * 10 ^ j) (e - j))) (dec_fix (mkDecimal c e))
  = true.
Proof.
  intros Hc Hj.
  assert (Hpj : 0 < 10 ^ j) by (apply pow10_pos; lia).
  destruct (Z.eq_dec c 0) as [->|Hnz].
  { rewrite Z.mul_0_l. cbn [dec_fix dcoef Z.eqb].
    apply (dec_eqb_at _ _ (e - j)); cbn [dexp]; try lia. reflexivity. }
  assert (HC : 0 < c * 10 ^ j) by nia.
  pose proof (ndigits_scale c j ltac:(lia) Hj) as Hnd.
  destruct (dec_fix_pos c e ltac:(lia)) as [[Hfit ->] | [Hbig Hex]].
  - destruct (dec_fix_pos (c * 10 ^ j) (e - j) HC) as [[_ ->] | [HBig HEx]].
    + apply (dec_eqb_at _ _ (e - j)); cbn [dexp]; try lia.
      unfold aligned; cbn [dcoef dexp]. rewrite Z.sub_diag. change (10 ^ 0) with 1.
      replace (e - (e - j)) with j by lia. lia.
    + destruct HEx as (k & q & Hk & Hkd & Hq & _ & _ & _ & Hexp & _ & Hval).
      set (r := dec_fix (mkDecimal (c * 10 ^ j) (e - j))) in *.
      assert (Hkj : k <= j).
      { rewrite Hnd in Hkd. apply ndigits_le_prec in Hfit; lia. }
      rewrite (round_half_even_exact c j k Hc ltac:(lia)) in Hq.
      apply (dec_eqb_at _ _ (e - j)); cbn [dexp]; try lia.
      unfold aligned; cbn [dcoef dexp].
      replace (dexp r - (e - j)) with ((dexp r - (e - j + k)) + k) by lia.
      rewrite pow10_split, Z.mul_assoc, Hval, Hq by lia.
      replace (e - (e - j)) with (j - k + k) by lia.
      rewrite pow10_split by lia. ring.
  - destruct Hex as (k & q & Hk & Hkd & Hq & _ & _ & _ & Hexp & _ & Hval).
    destruct (dec_fix_pos (c * 10 ^ j) (e - j) HC) as [[HFit _] | [_ HEx]].
    + exfalso. nia.
    + destruct HEx as (k' & q' & Hk' & Hkd' & Hq' & _ & _ & _ & Hexp' & _ & Hval').
      set (r := dec_fix (mkDecimal c e)) in *.
      set (r' := dec_fix (mkDecimal (c * 10 ^ j) (e - j))) in *.
      assert (Ek : k' = k + j) by lia. clear Hkd'. subst k'.
      rewrite (round_half_even_scale c j k Hc Hk Hj) in Hq'.
      apply (dec_eqb_at _ _ (e + k)); try lia.
      unfold aligned.
      replace (e - j + (k + j)) with (e + k) in Hval' by lia.
      rewrite Hval, Hval'. congruence.
Qed.

Lemma dec_add_zero_l (z x : Decimal) :
  dcoef z = 0 -> 0 <= dcoef x ->
  dec_eqb (dec_add z x) (dec_fix x) = true.
Proof.
  intros Hz Hx. unfold dec_add. set (m := Z.min (dexp z) (dexp x)).
  unfold aligned at 1. rewrite Hz, Z.mul_0_l, Z.add_0_l. unfold aligned.
  destruct x as [c e]; cbn [dcoef dexp] in *.
  replace m with (e - (e - m)) at 2 by lia.
  apply dec_fix_scale; [assumption | unfold m; lia].
Qed.

Lemma dec_add_zero_zero (a b : Decimal) :
  dcoef a = 0 -> dcoef b = 0 -> dcoef (dec_add a b) = 0.
Proof.
  intros Ha Hb. unfold dec_add, aligned. rewrite Ha, Hb. reflexivity.
Qed.

Lemma dec_gtb_leb (a b : Decimal) : dec_gtb a b = true -> dec_leb b a = true.
Proof.
  unfold dec_leb, dec_gtb, dec_compare. rewrite (Z.min_comm (dexp b)).
  rewrite (Z.compare_antisym (aligned a _) (aligned b _)).
  destruct (aligned a _ ?= aligned b _); simpl; congruence.
Qed.

Lemma dec_leb_trans (a b c : Decimal) :
  dec_leb a b = true -> dec_leb b c = true -> dec_leb a c = true.
Proof.
  set (m := Z.min (dexp a) (Z.min (dexp b) (dexp c))).
  rewrite (dec_leb_at a b m), (dec_leb_at b c m), (dec_leb_at a c m)
    by (unfold m; lia).
  lia.
Qed.

(** ** External spend: the fallback chain *)

Lemma fold_left_ext_in {A B} (f g : A -> B -> A) (l : list B) :
  (forall a x, In x l -> f a x = g a x) ->
  forall a, fold_left f l a = fold_left g l a.
Proof.
  induction l as [|x l IH]; intros H a; simpl; [reflexivity|].
  rewrite (H a x (or_introl eq_refl)). apply IH.
  intros a' y Hy. apply H. now right.
Qed.

Lemma fold_left_filter {A B} (p : B -> bool) (f : A -> B -> A) (l : list B) :
  forall a,
    fold_left (fun acc x => if p x then f acc x else acc) l a
    = fold_left f (filter p l) a.
Proof.
  induction l as [|x l IH]; intros a; simpl; [reflexivity|].
  destruct (p x); simpl; apply IH.
Qed.

Lemma contains_yen_glyph (l : str) :
  contains [c_yen] l = true -> has_glyph l = true.
Proof.
  intros H. apply contains_spec in H. destruct H as [pre [post ->]].
  unfold has_glyph. rewrite existsb_app. cbn [app existsb].
  replace (is_glyph c_yen) with true by reflexivity.
  now rewrite orb_true_r.
Qed.

Section HalfWidth.
Variable block : list str.
Hypothesis glyph_half :
  Forall (fun l => has_glyph l = true -> contains [c_yen] l = true) block.

Lemma glyph_test (l : str) : In l block -> contains [c_yen] l = has_glyph l.
Proof.
  intros Hin.
  pose proof (proj1 (Forall_forall _ _) glyph_half l Hin) as Hg.
  pose proof (contains_yen_glyph l) as H. cbn beta in Hg.
  destruct (contains [c_yen] l), (has_glyph l); try reflexivity.
  - symmetry. now apply H.
  - now apply Hg.
Qed.

Lemma external_step1_lines : external_step1 block = sum_lines (step1_lines block).
Proof.
  unfold external_step1, sum_lines, step1_lines.
  rewrite <- fold_left_filter. apply fold_left_ext_in.
  intros a l Hin. rewrite (glyph_test l Hin). unfold add_line_amounts, line_total.
  destruct (has_method_keyword l), (has_glyph l), (nonempty (extract_amounts l));
    reflexivity.
Qed.

Lemma external_step2_lines : external_step2 block = sum_lines (step2_lines block).
Proof.
  unfold external_step2, sum_lines, step2_lines.
  rewrite <- fold_left_filter. apply fold_left_ext_in.
  intros a l Hin. rewrite (glyph_test l Hin). unfold add_line_amounts, line_total.
  destruct (has_glyph l), (has_wallet_word l), (has_signed_yen l),
    (nonempty (extract_amounts l)); reflexivity.
Qed.
End HalfWidth.

(** What the loop of step 3 keeps: nothing when no line gave a first
    amount, and else one of the first amounts, no other being larger. *)
Lemma external_best_loop (block : list str) :
  forall (best : option Decimal) (seen : list Decimal),
    match best with
    | None => seen = []
    | Some b => In b seen /\ Forall (fun x => dec_leb x b = true) seen
    end ->
    match fold_left
            (fun best line =>
               if negb (has_signed_yen line) then best
               else match extract_amounts line with
                    | first :: _ =>
                        match best with
                        | None => Some first
                        | Some b => if dec_gtb first b then Some first else best
                        end
                    | [] => best
                    end) block best with
    | None => seen ++ first_amounts has_signed_yen block = []
    | Some b =>
        In b (seen ++ first_amounts has_signed_yen block) /\
        Forall (fun x => dec_leb x b = true)
               (seen ++ first_amounts has_signed_yen block)
    end.
Proof.
  induction block as [|line rest IH]; intros best seen Hinv.
  - cbn [fold_left first_amounts flat_map]. rewrite app_nil_r. exact Hinv.
  - cbn [fold_left]. unfold first_amounts; cbn [flat_map].
    fold (first_amounts has_signed_yen rest).
    destruct (has_signed_yen line); cbn [negb].
    2:{ cbn [app]. apply IH. exact Hinv. }
    destruct (extract_amounts line) as [|first more]; cbn [firstn].
    { cbn [app]. apply IH. exact Hinv. }
    rewrite app_assoc. apply IH.
    destruct best as [b|].
    + destruct Hinv as [Hin Hall].
      destruct (dec_gtb first b) eqn:Eg.
      * split; [apply in_or_app; right; now left|].
        apply Forall_app. split; [|constructor; [apply dec_leb_refl | constructor]].
        eapply Forall_impl; [|exact Hall]. intros x Hx; cbn beta in *.
        eapply dec_leb_trans; [exact Hx | now apply dec_gtb_leb].
      * split; [apply in_or_app; now left|].
        apply Forall_app. split; [exact Hall|].
        constructor; [|constructor]. unfold dec_leb. now rewrite Eg.
    + subst seen. cbn [app]. split; [now left|].
      constructor; [apply dec_leb_refl | constructor].
Qed.

Lemma external_best_spec (block : list str) :
  match external_best block with
  | None => first_amounts has_signed_yen block = []
  | Some b =>
      In b (first_amounts has_signed_yen block) /\
      Forall (fun x => dec_leb x b = true) (first_amounts has_signed_yen block)
  end.
Proof. exact (external_best_loop block None [] eq_refl). Qed.

Lemma first_amounts_nonneg (signed : str -> bool) (block : list str) :
  Forall (fun d => 0 <= dcoef d) (first_amounts signed block).
Proof.
  unfold first_amounts. apply Forall_forall. intros d Hin.
  apply in_flat_map in Hin. destruct Hin as [l [_ Hd]].
  destruct (signed l); [|destruct Hd].
  pose proof (amounts_of_nonneg (finditer re_amount 0 l)) as Hall.
  fold (extract_amounts l) in Hall.
  destruct (extract_amounts l) as [|x more]; [destruct Hd|].
  cbn [firstn] in Hd. destruct Hd as [<- | []]. now inversion Hall.
Qed.

Lemma sum_lines_fits (ls : list str) : 0 <= dcoef (sum_lines ls) < 10 ^ prec.
Proof.
  unfold sum_lines.
  apply (fold_left_invariant (fun d => 0 <= dcoef d < 10 ^ prec));
    [|apply Decimal_0_fits].
  intros a l Ha. apply dec_add_nonneg; [lia|].
  apply py_sum_nonneg, amounts_of_nonneg.
Qed.

Lemma dec_fix_fitting (d : Decimal) :
  0 <= dcoef d < 10 ^ prec -> dec_fix d = d.
Proof. destruct d as [c e]. apply dec_fix_small. Qed.

(** C1: in a block where every line with a glyph has the half-width one,
    the external spend is zero when no line names a payment method, and
    else the outcome of the three steps: the sum of the line totals over
    the lines with a method keyword and a glyph when that sum is not zero;
    else the sum of the line totals over the lines with a glyph, none of
    the wallet words and no sign right before a glyph, when that sum is not
    zero; else the largest of the first amounts of the lines with a sign
    right before a glyph, taken to the precision, or zero when there is no
    such amount.  The sums are the program's Decimal additions. *)
Theorem external_fallback_chain (block : list str) :
  Forall (fun l => has_glyph l = true -> contains [c_yen] l = true) block ->
  let ext := fst (calc_external_for_block block) in
  let s1 := sum_lines (step1_lines block) in
  let s2 := sum_lines (step2_lines block) in
  let firsts := first_amounts has_signed_yen block in
  if has_external_method block then
    if negb (dec_is_zero s1) then dec_eqb ext s1 = true
    else if negb (dec_is_zero s2) then dec_eqb ext s2 = true
    else match firsts with
         | [] => dec_is_zero ext = true
         | _ :: _ =>
             exists b, In b firsts /\
                       Forall (fun x => dec_leb x b = true) firsts /\
                       dec_eqb ext (dec_fix b) = true
         end
  else ext = Decimal_0.
Proof.
  intros Hhalf. cbv zeta. unfold calc_external_for_block; cbn [fst].
  destruct (has_external_method block); [|reflexivity].
  rewrite (external_step1_lines block Hhalf), (external_step2_lines block Hhalf).
  pose proof (sum_lines_fits (step1_lines block)) as F1.
  pose proof (sum_lines_fits (step2_lines block)) as F2.
  set (s1 := sum_lines (step1_lines block)) in *.
  set (s2 := sum_lines (step2_lines block)) in *.
  destruct (dec_is_zero s1) eqn:Z1; cbn [negb].
  - apply dec_is_zero_iff in Z1.
    assert (Hz1 : dcoef (dec_add Decimal_0 s1) = 0)
      by (now apply dec_add_zero_zero).
    destruct (dec_is_zero s2) eqn:Z2; cbn [negb].
    + apply dec_is_zero_iff in Z2.
      assert (Hz2 : dcoef (dec_add (dec_add Decimal_0 s1) s2) = 0)
        by (now apply dec_add_zero_zero).
      pose proof (external_best_spec block) as Hbest.
      pose proof (first_amounts_nonneg has_signed_yen block) as Hnn.
      destruct (external_best block) as [b|].
      * destruct Hbest as [Hin Hall].
        destruct (first_amounts has_signed_yen block) as [|f fs] eqn:E;
          [destruct Hin|].
        exists b. split; [exact Hin|]. split; [exact Hall|].
        apply dec_add_zero_l; [exact Hz2|].
        rewrite Forall_forall in Hnn. now apply Hnn.
      * rewrite Hbest. now apply dec_is_zero_iff.
    + rewrite <- (dec_fix_fitting s2 F2) at 2.
      apply dec_add_zero_l; [exact Hz1 | lia].
  - rewrite <- (dec_fix_fitting s1 F1) at 2.
    apply dec_add_zero_l; [reflexivity | lia].
Qed.

(** The block [支付宝 ¥59.00]: step 1 gives 59.00. *)
Lemma external_fallback_chain_witness :
  dec_eqb (fst (calc_external_for_block [line_alipay_half]))
          (sum_lines (step1_lines [line_alipay_half])) = true.
Proof.
  apply (external_fallback_chain [line_alipay_half]).
  repeat constructor.
Defined.

(** The claim in the specification's words fails where a line carries a
    token with a sign but no sign stands right before a glyph: on [支付宝]
    and [- ¥5 ¥7] step 2 of the program adds up 12, while the worded chain
    leaves the line to step 3 and gives 5.  It fails too on [支付宝 ￥59.00],
    where the program gives nothing and the worded chain 59.00. *)
Lemma external_signed_token_counterexample :
  dec_eqb (fst (calc_external_for_block block_signed_spaced))
          (spec_external block_signed_spaced) = false /\
  fst (calc_external_for_block block_signed_spaced) = mkDecimal 12 0 /\
  spec_external block_signed_spaced = mkDecimal 5 0 /\
  dec_eqb (fst (calc_external_for_block [line_alipay_full]))
          (spec_external [line_alipay_full]) = false.
Proof. repeat split; reflexivity. Qed.

(** [carries_signed_token] finds the lines that hold a token with a sign. *)
Lemma carries_signed_token_spec (l : str) :
  carries_signed_token l = true <->
  holds_token (fun t => t_sign t <> None) l.
Proof.
  split.
  - induction l as [|c s IH]; cbn [carries_signed_token]; [discriminate|].
    intros H. apply orb_true_iff in H. destruct H as [H|H].
    + apply andb_true_iff in H. destruct H as [Hc H].
      destruct (re_glyph_body s) as [[b r]|] eqn:E; [|discriminate].
      destruct (re_glyph_body_token (Some c) s b r Hc E) as (t & Hwf & Hs & _ & Ht & _).
      exists t, [], r. split; [exact Hwf|]. split; [rewrite Hs; discriminate|].
      exact Ht.
    + destruct (IH H) as (t & pre & post & Hwf & Hk & ->).
      exists t, (c :: pre), post.
      split; [exact Hwf|]. split; [exact Hk | reflexivity].
  - intros (t & pre & post & Hwf & Hk & ->).
    induction pre as [|c pre IH]; cbn [app carries_signed_token].
    + destruct Hwf as (Hs & H1 & Hg & H2 & Hne & Hb).
      unfold token_text. destruct (t_sign t) as [c|]; [|contradiction].
      cbn [sign_text app carries_signed_token]. rewrite Hs. cbn [andb].
      rewrite <- !app_assoc.
      pose proof (re_glyph_body_complete (t_ws1 t) (t_ws2 t) (t_body t) post
                    (t_glyph t) H1 Hg H2 Hne Hb) as Hre.
      cbn [app] in Hre |- *. rewrite <- ?app_assoc. now rewrite Hre.
    + rewrite IH. apply orb_true_r.
Qed.

(** Every line reads as tokens, of either kind. *)
Lemma line_lexed (line : str) : exists ts, lexed any_token line ts.
Proof.
  apply (lexed_exists re_amount any_token);
    [apply re_amount_complete | apply re_amount_sound].
Qed.

Lemma line_plus_lexed (line : str) : exists ts, lexed plus_token line ts.
Proof.
  apply (lexed_exists re_plus_amount plus_token);
    [apply re_plus_amount_complete | apply re_plus_amount_sound].
Qed.

Lemma block_plus_lexed (block : list str) :
  exists tss, Forall2 (lexed plus_token) block tss.
Proof.
  induction block as [|l rest [tss IH]]; [exists []; constructor|].
  destruct (line_plus_lexed l) as [ts Hts].
  exists (ts :: tss). now constructor.
Qed.

(** * Further properties *)

(** ** The segmenter, block by block *)

Lemma split_loop_acc (lines : list str) :
  forall blocks current,
    split_loop lines blocks current = blocks ++ split_loop lines [] current.
Proof.
  induction lines as [|line rest IH]; intros blocks current; cbn [split_loop].
  - destruct (nonempty current); [reflexivity | now rewrite app_nil_r].
  - destruct (is_date_line line).
    + destruct (nonempty current).
      * rewrite (IH (blocks ++ [current])), (IH ([] ++ [current])).
        now rewrite <- app_assoc.
      * rewrite (IH blocks). reflexivity.
    + destruct (nonempty current); apply IH.
Qed.

Lemma split_loop_first (lines : list str) :
  forall current,
    current <> [] ->
    exists more bs, split_loop lines [] current = (current ++ more) :: bs.
Proof.
  induction lines as [|line rest IH]; intros current Hne; cbn [split_loop].
  - destruct current; [contradiction|]. exists [], []. now rewrite app_nil_r.
  - destruct current as [|c cur]; [contradiction|]. cbn [nonempty].
    destruct (is_date_line line).
    + rewrite split_loop_acc. exists [], (split_loop rest [] [line]).
      now rewrite app_nil_r.
    + destruct (IH ((c :: cur) ++ [line]) ltac:(discriminate)) as (more & bs & E).
      exists (line :: more), bs. rewrite E. now rewrite <- app_assoc.
Qed.

Lemma split_loop_ok (lines : list str) :
  forall current,
    current = [] \/ block_ok current ->
    Forall block_ok (split_loop lines [] current).
Proof.
  induction lines as [|line rest IH]; intros current Hcur; cbn [split_loop].
  - destruct current; [constructor|]. destruct Hcur as [E|H]; [discriminate|].
    repeat constructor. exact H.
  - destruct (is_date_line line) eqn:Ed.
    + rewrite split_loop_acc. apply Forall_app. split.
      * destruct current; [constructor|]. destruct Hcur as [E|H]; [discriminate|].
        repeat constructor. exact H.
      * apply IH. right. constructor.
    + destruct current as [|c cur]; cbn [nonempty].
      * apply IH. right. constructor.
      * apply IH. right. destruct Hcur as [E|H]; [discriminate|].
        cbn [block_ok app] in *. apply Forall_app. split; [exact H|].
        repeat constructor. exact Ed.
Qed.

Lemma split_loop_heads (lines : list str) :
  forall current, Forall head_date (tl (split_loop lines [] current)).
Proof.
  induction lines as [|line rest IH]; intros current; cbn [split_loop].
  - destruct current; constructor.
  - destruct (is_date_line line) eqn:Ed.
    + rewrite split_loop_acc.
      assert (Hall : Forall head_date (split_loop rest [] [line])).
      { destruct (split_loop_first rest [line] ltac:(discriminate))
          as (more & bs & E).
        pose proof (IH [line]) as Htl. rewrite E in *. cbn [tl] in Htl.
        constructor; [exact Ed | exact Htl]. }
      destruct current; cbn [nonempty app tl]; [|exact Hall].
      destruct (split_loop rest [] [line]); [constructor|].
      now inversion Hall.
    + destruct (nonempty current); apply IH.
Qed.

(** X1: every block of the segmenter has a first line and no date marker
    after it, and every block but the first starts at a date marker. *)
Theorem split_blocks_shape (lines : list str) :
  Forall block_ok (split_blocks lines) /\
  Forall head_date (tl (split_blocks lines)).
Proof.
  unfold split_blocks. split.
  - apply split_loop_ok. now left.
  - apply split_loop_heads.
Qed.

Lemma split_loop_count (lines : list str) :
  forall current,
    current <> [] ->
    List.length (split_loop lines [] current) = S (count_dates lines).
Proof.
  unfold count_dates.
  induction lines as [|line rest IH]; intros current Hne; cbn [split_loop filter].
  - destruct current; [contradiction | reflexivity].
  - destruct current as [|c cur]; [contradiction|]. cbn [nonempty].
    destruct (is_date_line line).
    + rewrite split_loop_acc. cbn [app List.length].
      now rewrite (IH [line]) by discriminate.
    + apply IH. discriminate.
Qed.

(** X2: the segmenter makes one block for each date marker, and one more for
    the lines before the first marker when the document does not start at a
    marker. *)
Theorem split_blocks_count (lines : list str) :
  List.length (split_blocks lines)
  = (count_dates lines
     + match lines with
       | [] => 0
       | l :: _ => if is_date_line l then 0 else 1
       end)%nat.
Proof.
  unfold split_blocks. destruct lines as [|l rest]; [reflexivity|].
  cbn [split_loop nonempty]. unfold count_dates. cbn [filter].
  destruct (is_date_line l).
  - rewrite split_loop_count by discriminate. cbn [List.length].
    unfold count_dates. lia.
  - rewrite split_loop_count by discriminate. unfold count_dates. lia.
Qed.

Lemma split_loop_no_date (lines : list str) :
  Forall (fun l => is_date_line l = false) lines ->
  forall current,
    current <> [] -> split_loop lines [] current = [current ++ lines].
Proof.
  induction 1 as [|l rest Hl _ IH]; intros current Hne; cbn [split_loop].
  - destruct current; [contradiction | now rewrite app_nil_r].
  - rewrite Hl. destruct current as [|c cur]; [contradiction|]. cbn [nonempty].
    rewrite IH by discriminate. now rewrite <- app_assoc.
Qed.

(** X3: a document with no date marker is one block, the document itself. *)
Theorem split_blocks_no_date (lines : list str) :
  lines <> [] ->
  Forall (fun l => is_date_line l = false) lines ->
  split_blocks lines = [lines].
Proof.
  intros Hne Hnd. unfold split_blocks.
  destruct lines as [|l rest]; [contradiction|].
  inversion Hnd as [|? ? Hl Hrest]; subst.
  cbn [split_loop nonempty]. rewrite Hl.
  now rewrite (split_loop_no_date rest Hrest [l]) by discriminate.
Qed.

Lemma split_blocks_no_date_witness :
  split_blocks [lit "title"; lit "note"] = [[lit "title"; lit "note"]].
Proof.
  apply split_blocks_no_date; [discriminate | repeat constructor].
Defined.

(** ** The date marker *)

Lemma dropwhile_app_stop (p : char -> bool) (t b : str) (c : char) (r : str) :
  dropwhile p t = c :: r -> dropwhile p (t ++ b) = (c :: r) ++ b.
Proof.
  induction t as [|d t IH]; cbn [dropwhile app]; [discriminate|].
  destruct (p d); [exact IH|]. intros [= <- <-]. reflexivity.
Qed.

Lemma dropwhile_mid (p : char -> bool) (u v : str) (d : char) :
  p d = false -> dropwhile p (u ++ d :: v) = dropwhile p u ++ d :: v.
Proof.
  intros Hd. induction u as [|c u IH]; cbn [dropwhile app].
  - now rewrite Hd.
  - destruct (p c); [exact IH | reflexivity].
Qed.

Lemma rstrip_pad (t b : str) :
  Forall (fun c => isspace c = true) b -> rstrip (t ++ b) = rstrip t.
Proof.
  intros Hb. unfold rstrip. rewrite rev_app_distr.
  rewrite dropwhile_app by (now apply Forall_rev). reflexivity.
Qed.

(** Whitespace around a line plays no part in the date test. *)
Lemma strip_pad (a t b : str) :
  Forall (fun c => isspace c = true) a ->
  Forall (fun c => isspace c = true) b ->
  strip (a ++ t ++ b) = strip t.
Proof.
  intros Ha Hb. unfold strip, lstrip. rewrite dropwhile_app by assumption.
  destruct (dropwhile isspace t) as [|c r] eqn:E.
  - apply dropwhile_nil in E.
    replace (dropwhile isspace (t ++ b)) with (@nil char); [reflexivity|].
    symmetry. apply dropwhile_nil. apply Forall_app. now split.
  - rewrite (dropwhile_app_stop isspace t b c r E). now apply rstrip_pad.
Qed.

(** X4: the date test looks at the line without the whitespace around it. *)
Theorem is_date_line_padding (a t b : str) :
  Forall (fun c => isspace c = true) a ->
  Forall (fun c => isspace c = true) b ->
  is_date_line (a ++ t ++ b) = is_date_line t.
Proof.
  intros Ha Hb. unfold is_date_line. now rewrite strip_pad.
Qed.

Lemma is_date_line_padding_witness :
  is_date_line (lit "  " ++ (lit "2025" ++ [c_year] ++ lit "1" ++ [c_month]
                              ++ lit "1" ++ [c_day]) ++ [c_tab])
  = is_date_line (lit "2025" ++ [c_year] ++ lit "1" ++ [c_month]
                  ++ lit "1" ++ [c_day]).
Proof.
  apply is_date_line_padding; repeat constructor.
Defined.

Lemma decimal_not_space (c : char) : isdecimal c = true -> isspace c = false.
Proof.
  intros H. apply body_not_space. unfold is_body. now rewrite H.
Qed.

Lemma local_bind (f g : str -> option str) :
  local_pattern f -> local_pattern g -> local_pattern (fun s => bind (f s) g).
Proof.
  intros Hf Hg s r H. unfold bind in H.
  destruct (f s) as [s1|] eqn:E1; [|discriminate].
  destruct (Hf s s1 E1) as (p1 & d1 & Hs & _ & Hf').
  destruct (Hg s1 r H) as (p2 & d2 & Hs1 & Hd2 & Hg').
  exists ((p1 ++ [d1]) ++ p2), d2. split; [|split; [exact Hd2|]].
  - rewrite Hs, Hs1. now rewrite <- !app_assoc.
  - intros y. unfold bind.
    replace ((((p1 ++ [d1]) ++ p2) ++ [d2]) ++ y)
      with ((p1 ++ [d1]) ++ ((p2 ++ [d2]) ++ y)) by (now rewrite <- !app_assoc).
    rewrite Hf'. apply Hg'.
Qed.

Lemma re_spaces_then_inv (c : char) (s r : str) :
  re_spaces_then c s = Some r ->
  exists ws, s = ws ++ c :: r /\ Forall (fun x => isspace x = true) ws /\
             isspace c = false.
Proof.
  unfold re_spaces_then. intros H.
  pose proof (take_drop_while isspace s) as Hs.
  pose proof (dropwhile_head isspace s) as Hh.
  destruct (dropwhile isspace s) as [|d s'] eqn:E; [discriminate|].
  destruct (char_eqb d c) eqn:Ec; [|discriminate].
  apply char_eqb_eq in Ec. subst d. injection H as ->.
  exists (takewhile isspace s). split; [exact Hs|]. split; [apply takewhile_all|].
  now apply (Hh c r).
Qed.

Lemma re_spaces_then_intro (c : char) (ws y : str) :
  Forall (fun x => isspace x = true) ws -> isspace c = false ->
  re_spaces_then c (ws ++ c :: y) = Some y.
Proof.
  intros Hws Hc. unfold re_spaces_then.
  rewrite dropwhile_app by assumption. rewrite dropwhile_stop by assumption.
  replace (char_eqb c c) with true by (symmetry; now apply char_eqb_eq).
  reflexivity.
Qed.

Lemma local_spaces_then (c : char) : local_pattern (re_spaces_then c).
Proof.
  intros s r H. destruct (re_spaces_then_inv c s r H) as (ws & Hs & Hws & Hc).
  exists ws, c. split; [now rewrite <- app_assoc|]. split; [exact Hc|].
  intros y. rewrite <- app_assoc. now apply re_spaces_then_intro.
Qed.

Lemma local_digits (n : nat) : local_pattern (re_digits (S n)).
Proof.
  induction n as [|n IH]; intros s r H.
  - cbn [re_digits] in H. destruct s as [|c s']; [discriminate|].
    destruct (isdecimal c) eqn:Ec; [|discriminate]. injection H as ->.
    exists [], c. split; [reflexivity|]. split; [now apply decimal_not_space|].
    intros y. cbn [app re_digits]. now rewrite Ec.
  - change (re_digits (S (S n)) s)
      with (match s with
            | c :: s' => if isdecimal c then re_digits (S n) s' else None
            | [] => None
            end) in H.
    destruct s as [|c s']; [discriminate|].
    destruct (isdecimal c) eqn:Ec; [|discriminate].
    destruct (IH s' r H) as (p & d & Hs & Hd & Hf).
    exists (c :: p), d. split; [now rewrite Hs|]. split; [exact Hd|].
    intros y.
    change (re_digits (S (S n)) (((c :: p) ++ [d]) ++ y))
      with (if isdecimal c then re_digits (S n) ((p ++ [d]) ++ y) else None).
    rewrite Ec. apply Hf.
Qed.

Lemma head_not_decimal (c : char) (ws y : str) :
  Forall (fun x => isspace x = true) ws -> isdecimal c = false ->
  match ws ++ c :: y with
  | d :: _ => isdecimal d = false
  | [] => True
  end.
Proof.
  intros Hws Hc. destruct Hws as [|w ws' Hw _]; cbn [app]; [exact Hc|].
  destruct (isdecimal w) eqn:E; [|reflexivity].
  apply decimal_not_space in E. congruence.
Qed.

Lemma re_digits_1_2_stop (d1 : char) (s : str) :
  isdecimal d1 = true ->
  match s with d :: _ => isdecimal d = false | [] => True end ->
  re_digits_1_2 (d1 :: s) = Some s.
Proof.
  intros H1 Hs. unfold re_digits_1_2. rewrite H1.
  destruct s as [|d s']; [reflexivity|]. now rewrite Hs.
Qed.

(** [\s*\d{1,2}\s*] and a literal that is no digit *)
Lemma local_digits_1_2_then (c : char) :
  isdecimal c = false ->
  local_pattern (fun s => bind (re_digits_1_2 (dropwhile isspace s))
                               (re_spaces_then c)).
Proof.
  intros Hc s r H. unfold bind in H.
  pose proof (take_drop_while isspace s) as Hs.
  pose proof (takewhile_all isspace s) as Hws0.
  set (ws0 := takewhile isspace s) in *.
  destruct (dropwhile isspace s) as [|d1 s'] eqn:E; [discriminate|].
  unfold re_digits_1_2 in H.
  destruct (isdecimal d1) eqn:E1; [|discriminate].
  assert (Hd1 : isspace d1 = false) by (now apply decimal_not_space).
  destruct s' as [|d2 s''].
  - discriminate.
  - destruct (isdecimal d2) eqn:E2.
    + destruct (re_spaces_then_inv c s'' r H) as (ws & Hs'' & Hws & Hsc).
      exists (ws0 ++ d1 :: d2 :: ws), c. split; [|split; [exact Hsc|]].
      * rewrite Hs, Hs''. rewrite <- !app_assoc. reflexivity.
      * intros y.
        replace (((ws0 ++ d1 :: d2 :: ws) ++ [c]) ++ y)
          with (ws0 ++ d1 :: d2 :: ws ++ c :: y)
          by (rewrite <- !app_assoc; reflexivity).
        rewrite dropwhile_app by assumption.
        rewrite dropwhile_stop by assumption.
        unfold re_digits_1_2. rewrite E1, E2. cbn [bind].
        now apply re_spaces_then_intro.
    + destruct (re_spaces_then_inv c (d2 :: s'') r H) as (ws & Hs'' & Hws & Hsc).
      exists (ws0 ++ d1 :: ws), c. split; [|split; [exact Hsc|]].
      * rewrite Hs, Hs''. rewrite <- !app_assoc. reflexivity.
      * intros y.
        replace (((ws0 ++ d1 :: ws) ++ [c]) ++ y)
          with (ws0 ++ d1 :: ws ++ c :: y)
          by (rewrite <- !app_assoc; reflexivity).
        rewrite dropwhile_app by assumption.
        rewrite dropwhile_stop by assumption.
        rewrite re_digits_1_2_stop;
          [|exact E1 | now apply head_not_decimal].
        cbn [bind]. now apply re_spaces_then_intro.
Qed.

Lemma local_ext (f g : str -> option str) :
  (forall s, f s = g s) -> local_pattern f -> local_pattern g.
Proof.
  intros E Hf s r H. rewrite <- E in H.
  destruct (Hf s r H) as (p & d & Hs & Hd & Hy).
  exists p, d. split; [exact Hs|]. split; [exact Hd|].
  intros y. rewrite <- E. apply Hy.
Qed.

(** A match of the date pattern reads nothing after [日]. *)
Lemma local_DATE_PATTERN : local_pattern DATE_PATTERN_match.
Proof.
  apply (local_ext
           (fun s =>
              bind (bind (bind (bind (re_digits 4 s) (re_spaces_then c_year))
                               (fun s => bind (re_digits_1_2 (dropwhile isspace s))
                                              (re_spaces_then c_month)))
                         (fun s => bind (re_digits_1_2 (dropwhile isspace s))
                                        (re_spaces_then c_day)))
                   (fun s => Some s))).
  - intros s. unfold DATE_PATTERN_match, bind.
    destruct (re_digits 4 s) as [s1|]; [|reflexivity].
    destruct (re_spaces_then c_year s1) as [s2|]; [|reflexivity].
    destruct (re_digits_1_2 (dropwhile isspace s2)) as [s3|]; [|reflexivity].
    destruct (re_spaces_then c_month s3) as [s4|]; [|reflexivity].
    destruct (re_digits_1_2 (dropwhile isspace s4)) as [s5|]; [|reflexivity].
    destruct (re_spaces_then c_day s5); reflexivity.
  - pose proof (local_bind _ _
                  (local_bind _ _
                     (local_bind _ _ (local_digits 3) (local_spaces_then c_year))
                     (local_digits_1_2_then c_month eq_refl))
                  (local_digits_1_2_then c_day eq_refl)) as H.
    intros s r Hs. unfold bind at 1 in Hs.
    match type of Hs with
    | match ?m with _ => _ end = _ => destruct m as [s1|] eqn:E; [|discriminate]
    end.
    injection Hs as ->. destruct (H s r E) as (p & d & Hp & Hd & Hy).
    exists p, d. split; [exact Hp|]. split; [exact Hd|].
    intros y. unfold bind at 1. now rewrite Hy.
Qed.

Lemma rstrip_split (u : str) :
  u = rstrip u ++ rev (takewhile isspace (rev u)).
Proof.
  unfold rstrip. rewrite <- rev_app_distr, <- take_drop_while.
  now rewrite rev_involutive.
Qed.

Lemma rstrip_mid (a z : str) (d : char) :
  isspace d = false -> rstrip (a ++ d :: z) = a ++ d :: rstrip z.
Proof.
  intros Hd. unfold rstrip. rewrite rev_app_distr. cbn [rev].
  rewrite <- app_assoc. cbn [app]. rewrite dropwhile_mid by assumption.
  rewrite rev_app_distr. cbn [rev]. rewrite rev_involutive, <- app_assoc.
  reflexivity.
Qed.

Lemma strip_extend (t x p r : str) (d : char) :
  strip t = (p ++ [d]) ++ r -> isspace d = false ->
  exists y, strip (t ++ x) = (p ++ [d]) ++ y.
Proof.
  intros Hs Hd. unfold strip in *.
  destruct (lstrip t) as [|c u] eqn:El.
  - destruct p; discriminate Hs.
  - unfold lstrip in *. rewrite (dropwhile_app_stop isspace t x c u El).
    set (w := rev (takewhile isspace (rev (c :: u)))).
    assert (Hl : c :: u = p ++ d :: (r ++ w)).
    { rewrite (rstrip_split (c :: u)) at 1. rewrite Hs.
      rewrite <- !app_assoc. reflexivity. }
    rewrite Hl.
    replace ((p ++ d :: r ++ w) ++ x) with (p ++ d :: (r ++ w) ++ x)
      by (apply (app_assoc p (d :: r ++ w) x)).
    rewrite rstrip_mid by assumption.
    exists (rstrip ((r ++ w) ++ x)). exact (app_assoc p [d] _).
Qed.

(** X5: a date-marker line stays one whatever text is put after it. *)
Theorem is_date_line_suffix (t x : str) :
  is_date_line t = true -> is_date_line (t ++ x) = true.
Proof.
  unfold is_date_line.
  destruct (DATE_PATTERN_match (strip t)) as [r|] eqn:E; [|discriminate].
  intros _. destruct (local_DATE_PATTERN _ _ E) as (p & d & Hs & Hd & Hy).
  destruct (strip_extend t x p r d Hs Hd) as [y ->]. now rewrite Hy.
Qed.

Lemma is_date_line_suffix_witness :
  is_date_line ((lit "2025 " ++ [c_year] ++ lit " 12 " ++ [c_month]
                 ++ lit " 1 " ++ [c_day]) ++ [c_tab] ++ s_market) = true.
Proof.
  apply is_date_line_suffix. reflexivity.
Defined.

(** ** The extractor on whole lines *)

(** X6: every amount the extractor returns is a magnitude: zero or more,
    whatever sign stands in the text. *)
Theorem extract_amounts_nonneg (line : str) :
  Forall (fun d => dec_leb Decimal_0 d = true) (extract_amounts line).
Proof.
  unfold extract_amounts.
  eapply Forall_impl; [|apply amounts_of_nonneg].
  intros d Hd. now apply dec_nonneg_iff.
Qed.

Lemma token_text_glyph (t : token) :
  wf_token t -> (1 <= List.length (filter is_glyph (token_text t)))%nat.
Proof.
  intros (_ & _ & Hg & _). unfold token_text.
  rewrite !filter_app, !length_app. cbn [filter]. rewrite Hg.
  cbn [List.length]. lia.
Qed.

Lemma lexed_glyphs (kind : token -> Prop) (s : str) (ts : list token) :
  lexed kind s ts ->
  (List.length ts <= List.length (filter is_glyph s))%nat.
Proof.
  induction 1 as [| c s ts _ _ IH | t rest ts Hwf _ _ _ IH].
  - reflexivity.
  - cbn [filter]. destruct (is_glyph c); cbn [List.length]; lia.
  - rewrite filter_app, length_app. cbn [List.length].
    pose proof (token_text_glyph t Hwf). lia.
Qed.

Lemma extract_amounts_length_glyphs (line : str) :
  (List.length (extract_amounts line)
   <= List.length (filter is_glyph line))%nat.
Proof.
  destruct (line_lexed line) as [ts Hts].
  unfold extract_amounts.
  rewrite (finditer_amount_lexed line ts Hts), amounts_of_tokens.
  rewrite spec_amounts_length.
  pose proof (lexed_glyphs any_token line ts Hts).
  pose proof (filter_length_le spec_valid ts). lia.
Qed.

Lemma extract_amounts_without_glyph (line : str) :
  has_glyph line = false -> extract_amounts line = [].
Proof.
  intros Hg. pose proof (extract_amounts_length_glyphs line) as Hle.
  assert (Hf : filter is_glyph line = []).
  { unfold has_glyph in Hg. clear Hle.
    induction line as [|c l IH]; [reflexivity|].
    cbn [existsb filter] in *. apply orb_false_iff in Hg. destruct Hg as [Hc Hl].
    rewrite Hc. now apply IH. }
  rewrite Hf in Hle. destruct (extract_amounts line); [reflexivity|].
  cbn [List.length] in Hle. lia.
Qed.

(** X7: the extractor returns at most one amount for each glyph of the line,
    and none on a line without a glyph. *)
Theorem extract_amounts_glyphs (line : str) :
  (List.length (extract_amounts line)
   <= List.length (filter is_glyph line))%nat /\
  (has_glyph line = false -> extract_amounts line = []).
Proof.
  split.
  - apply extract_amounts_length_glyphs.
  - apply extract_amounts_without_glyph.
Qed.

Lemma extract_amounts_glyphs_witness :
  (List.length (extract_amounts (lit "Visa 59.00"))
   <= List.length (filter is_glyph (lit "Visa 59.00")))%nat /\
  extract_amounts (lit "Visa 59.00") = [].
Proof.
  destruct (extract_amounts_glyphs (lit "Visa 59.00")) as [Hlen Hnone].
  split; [exact Hlen | apply Hnone; reflexivity].
Defined.

Lemma finditer_plus_pass (m rest : str) :
  Forall (fun c => char_eqb c c_plus = false) m ->
  finditer re_plus_amount 0 (m ++ rest) = finditer re_plus_amount 0 rest.
Proof.
  induction 1 as [|c m Hc _ IH]; [reflexivity|].
  cbn [app finditer re_plus_amount]. rewrite Hc. exact IH.
Qed.

Lemma not_plus_classes (c : char) :
  isspace c = true \/ is_glyph c = true \/ is_body c = true ->
  char_eqb c c_plus = false.
Proof.
  intros H. destruct (char_eqb c c_plus) eqn:E; [|reflexivity].
  apply char_eqb_eq in E. subst c.
  destruct H as [H | [H | H]]; discriminate H.
Qed.

Lemma token_text_no_plus (t : token) :
  wf_token t -> t_sign t <> Some c_plus ->
  Forall (fun c => char_eqb c c_plus = false) (token_text t).
Proof.
  intros (Hs & H1 & Hg & H2 & _ & Hb) Hsign. unfold token_text.
  repeat (apply Forall_app; split).
  - destruct (t_sign t) as [c|]; cbn [sign_text]; [|constructor].
    constructor; [|constructor].
    destruct (char_eqb c c_plus) eqn:E; [|reflexivity].
    apply char_eqb_eq in E. subst c. contradiction.
  - eapply Forall_impl; [|exact H1]. intros c Hc. apply not_plus_classes. auto.
  - constructor; [|constructor]. apply not_plus_classes. auto.
  - eapply Forall_impl; [|exact H2]. intros c Hc. apply not_plus_classes. auto.
  - eapply Forall_impl; [|exact Hb]. intros c Hc. apply not_plus_classes. auto.
Qed.

Lemma option_eq_dec_plus (o : option char) :
  {o = Some c_plus} + {o <> Some c_plus}.
Proof.
  destruct o as [c|]; [|right; discriminate].
  destruct (N.eq_dec c c_plus) as [->|Hne]; [now left | right; congruence].
Qed.

Lemma plus_bodies_subseq (s : str) (ts : list token) :
  lexed any_token s ts ->
  subseq (finditer re_plus_amount 0 s) (map t_body ts).
Proof.
  induction 1 as [| c s ts Hno _ IH | t rest ts Hwf _ Hr _ IH].
  - constructor.
  - cbn [finditer].
    destruct (re_plus_amount (c :: s)) as [[b r]|] eqn:E; [|exact IH].
    apply re_plus_amount_sound in E.
    destruct E as (t & Hwf & _ & _ & Hs & _).
    exfalso. exact (Hno t r Hwf I Hs).
  - cbn [map].
    destruct (option_eq_dec_plus (t_sign t)) as [Hp|Hp].
    + pose proof (re_plus_amount_complete t rest Hwf Hp) as Hre.
      destruct (ends_body_runs rest Hr) as [Ht Hd].
      rewrite Ht, Hd, app_nil_r in Hre.
      pose proof (token_text_nonempty t Hwf) as Hne.
      destruct (token_text t) as [|c tl] eqn:Et; [contradiction|].
      cbn [app finditer] in *. rewrite Hre.
      replace (List.length (c :: tl ++ rest) - List.length rest - 1)%nat
        with (List.length tl)
        by (cbn [List.length]; rewrite length_app; lia).
      rewrite finditer_skip. now apply subseq_keep.
    + rewrite finditer_plus_pass by (now apply token_text_no_plus).
      now apply subseq_skip.
Qed.

Lemma amounts_of_subseq (a b : list str) :
  subseq a b -> subseq (amounts_of a) (amounts_of b).
Proof.
  induction 1 as [| x l1 l2 _ IH | x l1 l2 _ IH]; cbn [amounts_of].
  - constructor.
  - destruct (Decimal_of_str (remove_commas x)); [now apply subseq_skip | exact IH].
  - destruct (Decimal_of_str (remove_commas x)); [now apply subseq_keep | exact IH].
Qed.

(** X8: the amounts the marketplace scan adds up on a line are among those
    the extractor returns for it, in the same order. *)
Theorem plus_amounts_subseq (line : str) :
  subseq (plus_amounts line) (extract_amounts line).
Proof.
  destruct (line_lexed line) as [ts Hts].
  unfold plus_amounts, extract_amounts.
  rewrite (finditer_amount_lexed line ts Hts).
  apply amounts_of_subseq. now apply plus_bodies_subseq.
Qed.

(** ** The balance detector over two parts of a document *)

(** X9: the balance of a document in two parts is the balance of the first
    part when it has one, and else the balance of the second part. *)
Theorem detect_current_wallet_balance_app (a b : list str) :
  detect_current_wallet_balance (a ++ b)
  = match detect_current_wallet_balance a with
    | Some d => Some d
    | None => detect_current_wallet_balance b
    end.
Proof.
  induction a as [|line rest IH]; cbn [app detect_current_wallet_balance].
  - reflexivity.
  - destruct (Nat.leb_spec 3 (List.length (extract_amounts line))) as [Hge|Hlt].
    + destruct (nth_error (extract_amounts line) 2) eqn:E; [reflexivity|].
      apply nth_error_None in E. lia.
    + exact IH.
Qed.

(** ** Blocks and documents without a glyph *)

Lemma contains_glyph (sub l : str) (g : char) :
  In g sub -> is_glyph g = true -> contains sub l = true -> has_glyph l = true.
Proof.
  intros Hin Hg H. apply contains_spec in H. destruct H as [pre [post ->]].
  unfold has_glyph. rewrite !existsb_app.
  assert (Hs : existsb is_glyph sub = true).
  { apply existsb_exists. now exists g. }
  rewrite Hs. now rewrite orb_true_r.
Qed.

Lemma no_glyph_tests (l : str) :
  has_glyph l = false ->
  contains [c_yen] l = false /\ has_signed_yen l = false /\
  contains s_plus_yen l = false /\ contains s_plus_yen_full l = false.
Proof.
  intros Hg.
  assert (H : forall sub g, In g sub -> is_glyph g = true ->
                            contains sub l = false).
  { intros sub g Hin Hgl. destruct (contains sub l) eqn:E; [|reflexivity].
    rewrite (contains_glyph sub l g Hin Hgl E) in Hg. discriminate. }
  assert (H1 : contains [c_yen] l = false)
    by (apply (H _ c_yen); [now left | reflexivity]).
  assert (H2 : contains s_plus_yen l = false)
    by (apply (H _ c_yen); [right; now left | reflexivity]).
  assert (H3 : contains s_plus_yen_full l = false)
    by (apply (H _ c_yen_full); [right; now left | reflexivity]).
  assert (H4 : contains s_minus_yen l = false)
    by (apply (H _ c_yen); [right; now left | reflexivity]).
  assert (H5 : contains s_minus_yen_full l = false)
    by (apply (H _ c_yen_full); [right; now left | reflexivity]).
  unfold has_signed_yen. rewrite H2, H3, H4, H5. now repeat split.
Qed.

Lemma fold_left_fixed {A B} (f : A -> B -> A) (l : list B) (a : A) :
  (forall x, In x l -> f a x = a) -> fold_left f l a = a.
Proof.
  induction l as [|x l IH]; intros H; cbn [fold_left]; [reflexivity|].
  rewrite (H x (or_introl eq_refl)). apply IH. intros y Hy. apply H. now right.
Qed.

Lemma no_glyph_parts (block : list str) :
  Forall (fun l => has_glyph l = false) block ->
  is_market_block block = false /\ external_step1 block = Decimal_0 /\
  external_step2 block = Decimal_0 /\ external_best block = None.
Proof.
  intros H. rewrite Forall_forall in H. split; [|split; [|split]].
  - unfold is_market_block.
    replace (existsb (fun l => contains s_plus_yen l || contains s_plus_yen_full l)
                     block) with false; [apply andb_false_r|].
    symmetry. apply not_true_is_false. intros E.
    apply existsb_exists in E. destruct E as [l [Hin Hl]].
    destruct (no_glyph_tests l (H l Hin)) as (_ & _ & H2 & H3).
    rewrite H2, H3 in Hl. discriminate.
  - unfold external_step1. apply fold_left_fixed. intros l Hin.
    destruct (no_glyph_tests l (H l Hin)) as (Hy & _).
    now rewrite Hy, andb_false_r.
  - unfold external_step2. apply fold_left_fixed. intros l Hin.
    destruct (no_glyph_tests l (H l Hin)) as (Hy & _). now rewrite Hy.
  - unfold external_best. apply fold_left_fixed. intros l Hin.
    destruct (no_glyph_tests l (H l Hin)) as (_ & Hs & _). now rewrite Hs.
Qed.

(** X10: a block with no glyph on any line contributes nothing, whatever
    keywords it holds. *)
Theorem calc_external_no_glyph (block : list str) :
  Forall (fun l => has_glyph l = false) block ->
  calc_external_for_block block = (Decimal_0, Decimal_0).
Proof.
  intros H. destruct (no_glyph_parts block H) as (Hm & H1 & H2 & H3).
  unfold calc_external_for_block. rewrite Hm, H1, H2, H3.
  destruct (has_external_method block); reflexivity.
Qed.

Lemma calc_external_no_glyph_witness :
  calc_external_for_block [s_alipay; lit "Visa 59.00"] = (Decimal_0, Decimal_0).
Proof.
  apply calc_external_no_glyph. repeat constructor.
Defined.

Lemma totals_of_nothing (blocks : list (list str)) :
  Forall (fun b => calc_external_for_block b = (Decimal_0, Decimal_0)) blocks ->
  totals_of blocks = (Decimal_0, Decimal_0).
Proof.
  intros H. unfold totals_of. apply fold_left_fixed. intros b Hin.
  rewrite Forall_forall in H. unfold add_block. now rewrite (H b Hin).
Qed.

Lemma split_blocks_lines (lines : list str) (b : list str) (l : str) :
  In b (split_blocks lines) -> In l b -> In l lines.
Proof.
  intros Hb Hl. rewrite <- (split_loop_concat lines [] []) at 1.
  cbn [concat app]. rewrite app_nil_r || idtac.
  fold (split_blocks lines). apply in_concat. now exists b.
Qed.

Lemma detect_none (lines : list str) :
  Forall (fun l => extract_amounts l = []) lines ->
  detect_current_wallet_balance lines = None.
Proof.
  induction 1 as [|l rest Hl _ IH]; cbn [detect_current_wallet_balance];
    [reflexivity|].
  rewrite Hl. exact IH.
Qed.

(** X11: on a document with no glyph [main] has all three figures at 0.00
    and finds no balance. *)
Theorem main_figures_no_glyph (lines : list str) :
  Forall (fun l => has_glyph l = false) lines ->
  main_figures lines
  = Some (mkReport (mkDecimal 0 (-2)) (mkDecimal 0 (-2)) (mkDecimal 0 (-2)),
          None).
Proof.
  intros H. unfold main_figures.
  rewrite totals_of_nothing.
  - cbn [fst snd]. replace (report Decimal_0 Decimal_0)
      with (Some (mkReport (mkDecimal 0 (-2)) (mkDecimal 0 (-2))
                           (mkDecimal 0 (-2)))) by reflexivity.
    cbn [bind]. do 2 f_equal.
    apply detect_none. eapply Forall_impl; [|exact H].
    intros l Hl. now apply extract_amounts_without_glyph.
  - apply Forall_forall. intros b Hb.
    assert (Hb' : Forall (fun l => has_glyph l = false) b).
    { apply Forall_forall. intros l Hl. rewrite Forall_forall in H.
      apply H. eapply split_blocks_lines; eassumption. }
    destruct (no_glyph_parts b Hb') as (Hm & H1 & H2 & H3).
    unfold calc_external_for_block. rewrite Hm, H1, H2, H3.
    destruct (has_external_method b); reflexivity.
Qed.

Lemma main_figures_no_glyph_witness :
  main_figures [lit "2025 " ++ [c_year] ++ lit "1" ++ [c_month] ++ lit "1"
                ++ [c_day]; s_alipay; lit "59.00"]
  = Some (mkReport (mkDecimal 0 (-2)) (mkDecimal 0 (-2)) (mkDecimal 0 (-2)),
          None).
Proof.
  apply main_figures_no_glyph. repeat constructor.
Defined.

(** ** The payment-method test *)


(** ** When [main] has its figures and when it raises *)

(** Rounding half-even does not pass a round number above. *)
Lemma round_half_even_le (c k n : Z) :
  0 <= c -> 0 < k -> c <= n * 10 ^ k -> round_half_even c k <= n.
Proof.
  intros Hc Hk Hle.
  assert (HK : 0 < 10 ^ k) by (apply pow10_pos; lia).
  pose proof (round_half_even_bounds c k Hc Hk) as Hb.
  assert (Hq : c / 10 ^ k <= n).
  { apply Z.div_le_upper_bound; lia. }
  destruct (Z.eq_dec (c / 10 ^ k) n) as [E|E]; [|lia].
  assert (Hex : c = n * 10 ^ k).
  { pose proof (Z.mul_div_le c (10 ^ k) HK). nia. }
  assert (Hn : 0 <= n) by (rewrite <- E; apply Z.div_pos; lia).
  rewrite Hex. rewrite (round_half_even_exact n k k Hn ltac:(lia)).
  rewrite Z.sub_diag. change (10 ^ 0) with 1. lia.
Qed.

(** Rounding to the precision does not go above a value that the
    precision can hold. *)
Lemma dec_fix_below (t : Decimal) (c e : Z) :
  0 <= dcoef t < 10 ^ prec -> 0 <= c ->
  dec_leb (mkDecimal c e) t = true ->
  dec_leb (dec_fix (mkDecimal c e)) t = true.
Proof.
  intros Ht Hc Hle.
  destruct (Z.eq_dec c 0) as [->|Hnz]; [exact Hle|].
  destruct (dec_fix_pos c e ltac:(lia)) as [[_ ->] | [Hbig Hex]]; [exact Hle|].
  destruct Hex as (k & q & Hk & _ & Hq & Hdlo & _ & _ & Hexp & Hcoef & Hval).
  set (r := dec_fix (mkDecimal c e)) in *.
  set (m := Z.min (dexp t) e).
  apply (dec_leb_at (mkDecimal c e) t m) in Hle; cbn [dexp]; try lia.
  apply (dec_leb_at r t m); try lia.
  assert (Hr : aligned r m = q * 10 ^ (e + k - m)).
  { unfold aligned. replace (dexp r - m) with ((dexp r - (e + k)) + (e + k - m)) by lia.
    rewrite pow10_split by lia. rewrite Z.mul_assoc, Hval. reflexivity. }
  rewrite Hr. unfold aligned in *. cbn [dcoef dexp] in Hle.
  assert (HP : 0 < 10 ^ (e - m)) by (apply pow10_pos; lia).
  assert (HK : 0 < 10 ^ k) by (apply pow10_pos; lia).
  assert (Hck : 10 ^ (prec - 1) * 10 ^ k <= c).
  { pose proof (Z.mul_div_le c (10 ^ k) HK). nia. }
  destruct (Z.le_gt_cases (e + k) (dexp t)) as [Hhi|Hlo].
  - replace (dexp t - m) with ((dexp t - (e + k)) + (k + (e - m))) in * by lia.
    replace (e + k - m) with (k + (e - m)) by lia.
    rewrite !pow10_split in * by lia.
    set (T := dcoef t * 10 ^ (dexp t - (e + k))) in *.
    assert (HT : c <= T * 10 ^ k).
    { rewrite Z.mul_assoc in Hle. fold T in Hle. nia. }
    assert (HqT : q <= T).
    { rewrite Hq. apply round_half_even_le; assumption. }
    rewrite (Z.mul_assoc (dcoef t)). fold T.
    apply Z.mul_le_mono_nonneg_r; [nia | exact HqT].
  - exfalso.
    assert (H1 : 10 ^ (dexp t - m) <= 10 ^ (e + k - 1 - m)) by (apply pow10_le; lia).
    assert (H2 : 10 ^ (e + k - 1 - m) * 10 = 10 ^ k * 10 ^ (e - m)).
    { rewrite <- pow10_split by lia.
      replace (k + (e - m)) with (e + k - 1 - m + 1) by lia.
      rewrite pow10_succ by lia. lia. }
    assert (H3 : 10 ^ prec = 10 * 10 ^ (prec - 1)).
    { replace prec with (prec - 1 + 1) at 1 by lia. apply pow10_succ; unfold prec; lia. }
    assert (H4 : 0 < 10 ^ (dexp t - m)) by (apply pow10_pos; lia).
    assert (H5 : 0 < 10 ^ (prec - 1)) by (apply pow10_pos; unfold prec; lia).
    assert (H6 : dcoef t * 10 ^ (dexp t - m)
                 < 10 ^ prec * 10 ^ (e + k - 1 - m)) by nia.
    assert (H7 : 10 ^ prec * 10 ^ (e + k - 1 - m)
                 = 10 ^ (prec - 1) * 10 ^ k * 10 ^ (e - m)) by nia.
    nia.
Qed.

(** [quantize] raises on ten digits or more before the point. *)
Lemma quantize_cents_large (d : Decimal) :
  dec_leb (mkDecimal 1 10) d = true -> quantize_cents d = None.
Proof.
  intros H. set (m := Z.min 10 (dexp d)).
  apply (dec_leb_at (mkDecimal 1 10) d m) in H; cbn [dexp]; try (unfold m; lia).
  unfold aligned in H; cbn [dcoef dexp] in H.
  assert (HP : 0 < 10 ^ (10 - m)) by (apply pow10_pos; unfold m; lia).
  assert (HQ : 0 < 10 ^ (dexp d - m)) by (apply pow10_pos; unfold m; lia).
  assert (Hc : 0 < dcoef d) by nia.
  unfold quantize_cents.
  replace (dcoef d =? 0) with false by (symmetry; apply Z.eqb_neq; lia).
  rewrite (Z.abs_eq (dcoef d)) by lia.
  replace (prec <? ndigits (dcoef d) + dexp d - 1 - -2 + 1) with true;
    [reflexivity|].
  symmetry. apply Z.ltb_lt.
  destruct (ndigits_spec (dcoef d) Hc) as [Hn1 [_ Hhi]].
  assert (Hlt : 10 ^ (10 - m) < 10 ^ (ndigits (dcoef d) + (dexp d - m))).
  { rewrite (pow10_split (ndigits (dcoef d))) by (unfold m; lia). nia. }
  apply Z.pow_lt_mono_r_iff in Hlt; unfold prec, m in *; lia.
Qed.

(** [quantize] has a result, no more than the bound in cents, on a value
    that is at most a whole number below ten digits. *)
Lemma quantize_cents_small (d : Decimal) (b : Z) :
  0 <= dcoef d -> 0 <= b -> 100 * b < 10 ^ prec ->
  dec_leb d (mkDecimal b 0) = true ->
  exists n, quantize_cents d = Some (mkDecimal n (-2)) /\ 0 <= n <= 100 * b.
Proof.
  intros Hd Hb Hb12 Hle.
  unfold quantize_cents.
  destruct (Z.eqb_spec (dcoef d) 0) as [Hz|Hnz].
  { exists 0. split; [reflexivity | lia]. }
  assert (Hc : 0 < dcoef d) by lia.
  rewrite (Z.abs_eq (dcoef d)) by lia.
  destruct (ndigits_spec (dcoef d) Hc) as [Hn1 [Hlo _]].
  set (m := Z.min (dexp d) (-2)).
  apply (dec_leb_at d (mkDecimal b 0) m) in Hle; cbn [dexp]; try (unfold m; lia).
  unfold aligned in Hle; cbn [dcoef dexp] in Hle.
  assert (HQ : 0 < 10 ^ (dexp d - m)) by (apply pow10_pos; unfold m; lia).
  assert (HU : 0 < 10 ^ (-2 - m)) by (apply pow10_pos; unfold m; lia).
  assert (Hb0 : b * 10 ^ (0 - m) = 100 * b * 10 ^ (-2 - m)).
  { replace (0 - m) with (2 + (-2 - m)) by lia.
    rewrite pow10_split by (unfold m; lia). change (10 ^ 2) with 100. ring. }
  rewrite Hb0 in Hle.
  assert (Hchk : (prec <? ndigits (dcoef d) + dexp d - 1 - -2 + 1) = false).
  { apply Z.ltb_ge.
    assert (Hlt : 10 ^ (ndigits (dcoef d) - 1 + (dexp d - m))
                  < 10 ^ (prec + (-2 - m))).
    { rewrite !pow10_split by (unfold prec, m; lia). nia. }
    apply Z.pow_lt_mono_r_iff in Hlt; unfold prec, m in *; lia. }
  rewrite Hchk. unfold rescale.
  replace (dcoef d =? 0) with false by (symmetry; now apply Z.eqb_neq).
  rewrite (Z.abs_eq (dcoef d)) by lia. rewrite (Z.sgn_pos (dcoef d)) by lia.
  destruct (Z.leb_spec (-2) (dexp d)) as [Hge|Hlt]; cbn [dcoef dexp].
  - assert (Hm : m = -2) by (unfold m; lia). rewrite Hm in *.
    replace (-2 - -2) with 0 in Hle by lia. change (10 ^ 0) with 1 in Hle.
    unfold aligned. set (n := dcoef d * 10 ^ (dexp d - -2)) in *.
    assert (Hn : 0 <= n <= 100 * b) by (unfold n in *; nia).
    rewrite (Z.abs_eq n) by lia.
    replace (prec <? ndigits n) with false.
    + rewrite dec_fix_small by lia. exists n. split; [reflexivity | exact Hn].
    + symmetry. apply Z.ltb_ge.
      destruct (Z.eq_dec n 0) as [->|Hn0]; [now compute|].
      apply ndigits_le_prec; lia.
  - assert (Hm : m = dexp d) by (unfold m; lia). rewrite Hm in *.
    rewrite Z.sub_diag in Hle. change (10 ^ 0) with 1 in Hle.
    set (k := -2 - dexp d) in *.
    pose proof (round_half_even_bounds (dcoef d) k Hd ltac:(unfold k; lia)) as Hbd.
    pose proof (round_half_even_le (dcoef d) k (100 * b) Hd ltac:(unfold k; lia)
                  ltac:(lia)) as Hup.
    set (n := round_half_even (dcoef d) k) in *.
    assert (Hn : 0 <= n).
    { apply Z.le_trans with (dcoef d / 10 ^ k); [|apply Hbd].
      apply Z.div_pos; lia. }
    replace (1 * n) with n by lia. rewrite (Z.abs_eq n) by lia.
    replace (prec <? ndigits n) with false.
    + rewrite dec_fix_small by lia. exists n. split; [reflexivity | lia].
    + symmetry. apply Z.ltb_ge.
      destruct (Z.eq_dec n 0) as [->|Hn0]; [now compute|].
      apply ndigits_le_prec; lia.
Qed.

Lemma quantize_cents_sum_fits (a b : Z) :
  0 <= a -> 0 <= b -> a + b < 10 ^ prec ->
  quantize_cents (dec_add (mkDecimal a (-2)) (mkDecimal b (-2)))
  = Some (mkDecimal (a + b) (-2)).
Proof.
  intros Ha Hb Hfit. unfold dec_add. cbn [dcoef dexp]. rewrite Z.min_id.
  unfold aligned; cbn [dcoef dexp]. rewrite Z.sub_diag. change (10 ^ 0) with 1.
  rewrite !Z.mul_1_r, dec_fix_small by lia.
  unfold quantize_cents; cbn [dcoef dexp].
  destruct (Z.eqb_spec (a + b) 0) as [E|E]; [now rewrite E|].
  rewrite (Z.abs_eq (a + b)) by lia.
  replace (ndigits (a + b) + -2 - 1 - -2 + 1) with (ndigits (a + b)) by lia.
  assert (Hnd : (prec <? ndigits (a + b)) = false).
  { apply Z.ltb_ge. apply ndigits_le_prec; lia. }
  rewrite Hnd. unfold rescale; cbn [dcoef dexp].
  replace (a + b =? 0) with false by (symmetry; now apply Z.eqb_neq).
  cbn [Z.leb Z.compare Pos.compare Pos.compare_cont CompOpp].
  unfold aligned; cbn [dcoef dexp]. rewrite Z.sub_diag. change (10 ^ 0) with 1.
  rewrite Z.mul_1_r, (Z.abs_eq (a + b)) by lia. rewrite Hnd.
  now rewrite dec_fix_small by lia.
Qed.

Lemma dec_mul_0_9_below (tm : Decimal) (b : Z) :
  0 <= dcoef tm -> 0 <= b < 10 ^ prec ->
  dec_leb tm (mkDecimal b 0) = true ->
  0 <= dcoef (dec_mul tm Decimal_0_9) /\
  dec_leb (dec_mul tm Decimal_0_9) (mkDecimal b 0) = true.
Proof.
  intros Htm Hb Hle. unfold dec_mul. cbn [dcoef dexp Decimal_0_9]. split.
  - apply dec_fix_nonneg. cbn [dcoef]. lia.
  - apply dec_fix_below; cbn [dcoef]; try lia.
    set (m := Z.min (dexp tm) 0 - 1).
    apply (dec_leb_at tm (mkDecimal b 0) (m + 1)) in Hle;
      cbn [dexp]; try (unfold m; lia).
    apply (dec_leb_at _ (mkDecimal b 0) m); cbn [dexp]; try (unfold m; lia).
    unfold aligned in *; cbn [dcoef dexp] in *.
    replace (dexp tm + -1 - m) with (dexp tm - (m + 1)) by lia.
    replace (0 - m) with (0 - (m + 1) + 1) by lia.
    rewrite (pow10_succ (0 - (m + 1))) by (unfold m; lia).
    assert (0 < 10 ^ (dexp tm - (m + 1))) by (apply pow10_pos; unfold m; lia).
    nia.
Qed.

Lemma dec_mul_0_9_above (tm : Decimal) :
  dec_leb (mkDecimal 2 10) tm = true ->
  dec_leb (mkDecimal 1 10) (dec_mul tm Decimal_0_9) = true.
Proof.
  intros Hle. unfold dec_mul. cbn [dcoef dexp Decimal_0_9].
  set (m := Z.min (dexp tm) 10 - 1).
  apply (dec_leb_at (mkDecimal 2 10) tm (m + 1)) in Hle;
    cbn [dexp]; try (unfold m; lia).
  unfold aligned in Hle; cbn [dcoef dexp] in Hle.
  assert (HP : 0 < 10 ^ (10 - (m + 1))) by (apply pow10_pos; unfold m; lia).
  assert (HQ : 0 < 10 ^ (dexp tm - (m + 1))) by (apply pow10_pos; unfold m; lia).
  apply dec_fix_above; cbn [dcoef]; [now compute | nia |].
  apply (dec_leb_at (mkDecimal 1 10) _ m); cbn [dexp]; try (unfold m; lia).
  unfold aligned; cbn [dcoef dexp].
  replace (dexp tm + -1 - m) with (dexp tm - (m + 1)) by lia.
  replace (10 - m) with (10 - (m + 1) + 1) by lia.
  rewrite (pow10_succ (10 - (m + 1))) by (unfold m; lia). nia.
Qed.

(** X13: [main] has its figures when neither total is above 1,000,000,000,
    and the total cost is then the exact sum of the two rounded figures. *)
Theorem main_figures_small (lines : list str) :
  dec_leb (fst (totals_of (split_blocks lines))) (mkDecimal 1000000000 0) = true ->
  dec_leb (snd (totals_of (split_blocks lines))) (mkDecimal 1000000000 0) = true ->
  exists r,
    main_figures lines = Some (r, detect_current_wallet_balance lines) /\
    total_cost r
    = mkDecimal (dcoef (direct_external r) + dcoef (cost_from_market r)) (-2).
Proof.
  intros Hte Htm. unfold main_figures.
  destruct (totals_of_fit (split_blocks lines)) as [Fe Fm].
  set (te := fst (totals_of (split_blocks lines))) in *.
  set (tm := snd (totals_of (split_blocks lines))) in *.
  destruct (dec_mul_0_9_below tm 1000000000 ltac:(lia) ltac:(now compute) Htm)
    as [Hp0 Hp].
  destruct (quantize_cents_small _ 1000000000 Hp0 ltac:(lia) ltac:(now compute) Hp)
    as (n1 & E1 & Hn1).
  destruct (quantize_cents_small te 1000000000 ltac:(lia) ltac:(lia)
              ltac:(now compute) Hte) as (n2 & E2 & Hn2).
  exists (mkReport (mkDecimal n1 (-2)) (mkDecimal n2 (-2))
                   (mkDecimal (n2 + n1) (-2))).
  split; [|reflexivity].
  unfold report. rewrite E1. cbn [bind]. rewrite E2. cbn [bind].
  rewrite quantize_cents_sum_fits; [reflexivity | lia | lia |].
  apply Z.le_lt_trans with (100 * 1000000000 + 100 * 1000000000); [lia|].
  now compute.
Qed.

Lemma main_figures_small_witness :
  exists r,
    main_figures [line_alipay_half]
    = Some (r, detect_current_wallet_balance [line_alipay_half]) /\
    total_cost r
    = mkDecimal (dcoef (direct_external r) + dcoef (cost_from_market r)) (-2).
Proof.
  apply (main_figures_small [line_alipay_half]); reflexivity.
Defined.

(** X14: [main] raises, and prints no figure, when the external total
    reaches 10,000,000,000 or the marketplace total 20,000,000,000. *)
Theorem main_figures_large (lines : list str) :
  dec_leb (mkDecimal 1 10) (fst (totals_of (split_blocks lines))) = true \/
  dec_leb (mkDecimal 2 10) (snd (totals_of (split_blocks lines))) = true ->
  main_figures lines = None.
Proof.
  intros H. unfold main_figures, report.
  set (te := fst (totals_of (split_blocks lines))) in *.
  set (tm := snd (totals_of (split_blocks lines))) in *.
  destruct H as [H|H].
  - rewrite (quantize_cents_large te H).
    destruct (quantize_cents (dec_mul tm Decimal_0_9)); reflexivity.
  - now rewrite (quantize_cents_large _ (dec_mul_0_9_above tm H)).
Qed.

Lemma main_figures_large_witness :
  main_figures [s_alipay ++ lit " " ++ [c_yen] ++ lit "10000000000"] = None.
Proof.
  apply main_figures_large. left. reflexivity.
Defined.

(** ** Amounts in cents add up exactly *)

Lemma cents_total_nonneg (ds : list Decimal) :
  Forall (fun d => 0 <= dcoef d) ds -> 0 <= cents_total ds.
Proof.
  induction 1 as [|d r Hd _ IH]; cbn [cents_total fold_right]; [lia|].
  fold (cents_total r). lia.
Qed.

Lemma fold_cents (ds : list Decimal) :
  Forall (fun d => 0 <= dcoef d) ds ->
  Forall (fun d => dexp d = -2) ds ->
  forall a, 0 <= a -> a + cents_total ds < 10 ^ prec ->
    fold_left dec_add ds (mkDecimal a (-2))
    = mkDecimal (a + cents_total ds) (-2).
Proof.
  induction 1 as [|d r Hd Hr IH]; intros He a Ha Hfit;
    cbn [fold_left cents_total fold_right] in *.
  - now rewrite Z.add_0_r.
  - fold (cents_total r) in *. inversion He as [|? ? Hed Her]; subst.
    pose proof (cents_total_nonneg r Hr) as Hnn.
    rewrite dec_add_exact; cbn [dcoef dexp]; try lia.
    + rewrite Hed, Z.min_id. unfold aligned; cbn [dcoef dexp].
      rewrite Hed, Z.sub_diag. change (10 ^ 0) with 1. rewrite !Z.mul_1_r.
      rewrite IH by (assumption || lia). f_equal. lia.
    + rewrite Hed, Z.min_id. unfold aligned; cbn [dcoef dexp].
      rewrite Hed, Z.sub_diag. change (10 ^ 0) with 1. lia.
Qed.

Lemma sum_cents (ds : list Decimal) :
  Forall (fun d => 0 <= dcoef d) ds ->
  Forall (fun d => dexp d = -2) ds ->
  cents_total ds < 10 ^ prec ->
  dec_eqb (fold_left dec_add ds Decimal_0) (mkDecimal (cents_total ds) (-2))
  = true.
Proof.
  intros Hnn He Hfit. destruct ds as [|d r]; [reflexivity|].
  cbn [fold_left cents_total fold_right] in *. fold (cents_total r) in *.
  inversion Hnn as [|? ? Hd Hr]; subst. inversion He as [|? ? Hed Her]; subst.
  pose proof (cents_total_nonneg r Hr) as Hr0.
  assert (E : dec_add Decimal_0 d = mkDecimal (dcoef d) (-2)).
  { destruct d as [c e]; cbn [dcoef dexp] in *. subst e.
    unfold dec_add, aligned; cbn [dcoef dexp Decimal_0].
    change (Z.min 0 (-2)) with (-2).
    replace (0 * 10 ^ (0 - -2) + c * 10 ^ (-2 - -2)) with c
      by (change (10 ^ (-2 - -2)) with 1; lia).
    apply dec_fix_small. lia. }
  rewrite E, fold_cents by (assumption || lia).
  apply (dec_eqb_at _ _ (-2)); cbn [dexp]; lia.
Qed.

(** X15: in a marketplace block whose amounts with a plus sign are all
    written with two decimals and add up to less than 10^12 cents, the
    income is the exact sum of those amounts. *)
Theorem market_income_cents_exact (block : list str) :
  is_market_block block = true ->
  Forall (fun d => dexp d = -2) (flat_map plus_amounts block) ->
  cents_total (flat_map plus_amounts block) < 10 ^ prec ->
  dec_eqb (snd (calc_external_for_block block))
          (mkDecimal (cents_total (flat_map plus_amounts block)) (-2)) = true.
Proof.
  intros Hm He Hfit. unfold calc_external_for_block; cbn [snd]. rewrite Hm.
  rewrite market_loop_flat. apply sum_cents; [|assumption|assumption].
  apply Forall_forall. intros d Hd. apply in_flat_map in Hd.
  destruct Hd as [l [_ Hd]].
  pose proof (amounts_of_nonneg (finditer re_plus_amount 0 l)) as Hall.
  rewrite Forall_forall in Hall. now apply Hall.
Qed.

Lemma market_income_cents_exact_witness :
  dec_eqb (snd (calc_external_for_block
                  (block_market ++ [[c_plus; c_yen] ++ lit "0.50"])))
          (mkDecimal
             (cents_total (flat_map plus_amounts
                (block_market ++ [[c_plus; c_yen] ++ lit "0.50"]))) (-2))
  = true.
Proof.
  apply market_income_cents_exact.
  - reflexivity.
  - repeat constructor.
  - reflexivity.
Defined.

(** ** The formatter, line by line *)

Lemma contains_single (c : char) (l : str) :
  contains [c] l = existsb (char_eqb c) l.
Proof.
  induction l as [|x l IH]; [reflexivity|].
  change (contains [c] (x :: l))
    with (startswith [c] (x :: l) || contains [c] l).
  cbn [startswith existsb]. now rewrite andb_true_r, IH.
Qed.

Lemma no_tab_iff (l : str) :
  contains [c_tab] l = false <-> Forall (fun x => char_eqb c_tab x = false) l.
Proof.
  rewrite contains_single. induction l as [|x l IH]; cbn [existsb].
  - split; [constructor | reflexivity].
  - rewrite orb_false_iff, IH. split.
    + intros [H1 H2]. now constructor.
    + inversion 1; subst. now split.
Qed.

Lemma Forall_dropwhile (P : char -> Prop) (p : char -> bool) (l : str) :
  Forall P l -> Forall P (dropwhile p l).
Proof.
  induction 1 as [|x l Hx Hl IH]; cbn [dropwhile]; [constructor|].
  destruct (p x); [exact IH | now constructor].
Qed.

Lemma Forall_strip (P : char -> Prop) (l : str) :
  Forall P l -> Forall P (strip l) /\ Forall P (rstrip l).
Proof.
  intros H. unfold strip, rstrip, lstrip. split.
  - apply Forall_rev, Forall_dropwhile, Forall_rev. now apply Forall_dropwhile.
  - now apply Forall_rev, Forall_dropwhile, Forall_rev.
Qed.

Lemma split_tab_no_tab (s : str) :
  Forall (Forall (fun x => char_eqb c_tab x = false)) (split_tab s).
Proof.
  induction s as [|c s IH]; cbn [split_tab]; [repeat constructor|].
  destruct (char_eqb c c_tab) eqn:E.
  - constructor; [constructor | exact IH].
  - destruct (split_tab s) as [|p ps].
    + repeat constructor.
      destruct (char_eqb c_tab c) eqn:E'; [|reflexivity].
      apply char_eqb_eq in E'. subst c. discriminate.
    + inversion IH; subst. constructor; [|assumption]. constructor; [|assumption].
      destruct (char_eqb c_tab c) eqn:E'; [|reflexivity].
      apply char_eqb_eq in E'. subst c. discriminate.
Qed.

Lemma join_no_tab (P : char -> Prop) (sep : str) (parts : list str) :
  Forall P sep -> Forall (Forall P) parts -> Forall P (join sep parts).
Proof.
  intros Hsep. induction 1 as [|p ps Hp Hps IH]; cbn [join]; [constructor|].
  destruct ps; [exact Hp|].
  apply Forall_app. split; [exact Hp|]. apply Forall_app. now split.
Qed.

Lemma prettify_line_no_tab (text : str) :
  contains [c_tab] (prettify_line text) = false.
Proof.
  apply no_tab_iff. unfold prettify_line.
  destruct (negb (nonempty (strip text))); [constructor|].
  destruct (contains [c_tab] text) eqn:Et.
  - apply join_no_tab; [repeat constructor|].
    apply Forall_forall. intros p Hp. apply filter_In in Hp. destruct Hp as [Hp _].
    apply in_map_iff in Hp. destruct Hp as [x [<- Hx]].
    pose proof (split_tab_no_tab text) as H. rewrite Forall_forall in H.
    exact (proj1 (Forall_strip _ x (H x Hx))).
  - apply no_tab_iff in Et.
    destruct (existsb (str_eqb (strip text)) keywords).
    + apply Forall_app. split; [repeat constructor|].
      exact (proj1 (Forall_strip _ text Et)).
    + exact (proj2 (Forall_strip _ text Et)).
Qed.

Lemma format_loop_no_tab (lines : list str) :
  forall out_lines fcw,
    Forall (fun l => contains [c_tab] l = false) out_lines ->
    Forall (fun l => contains [c_tab] l = false) (format_loop lines out_lines fcw).
Proof.
  induction lines as [|raw rest IH]; intros out fcw Hout; cbn [format_loop];
    [assumption|].
  destruct (is_date_line _).
  - apply IH. apply Forall_app. split.
    + destruct fcw; [|assumption]. apply Forall_app. split; [assumption|].
      repeat constructor.
    + constructor; [apply prettify_line_no_tab | constructor].
  - destruct (negb _); apply IH; apply Forall_app; (split; [assumption|]);
      (constructor; [|constructor]); [reflexivity | apply prettify_line_no_tab].
Qed.

(** X16: no line the formatter writes ends in whitespace, and none holds a
    tab. *)
Theorem format_cost_lines_clean (lines : list str) :
  Forall (fun l => rstrip l = l /\ contains [c_tab] l = false)
         (format_cost_lines lines).
Proof.
  pose proof (format_loop_tidy lines [] false (Forall_nil _)) as Ht.
  pose proof (format_loop_no_tab lines [] false (Forall_nil _)) as Hn.
  fold (format_cost_lines lines) in Ht, Hn.
  rewrite Forall_forall in *. intros l Hl. split; [now apply Ht | now apply Hn].
Qed.

Lemma rstrip_newline_split (raw : str) :
  exists b, raw = rstrip_newline raw ++ b /\
            Forall (fun c => isspace c = true) b.
Proof.
  exists (rev (takewhile (fun c => char_eqb c c_newline) (rev raw))). split.
  - unfold rstrip_newline. rewrite <- rev_app_distr, <- take_drop_while.
    now rewrite rev_involutive.
  - apply Forall_rev. eapply Forall_impl; [|apply takewhile_all].
    intros c Hc. cbn beta in Hc. apply char_eqb_eq in Hc. now subst.
Qed.

(** The formatter takes for a date marker the lines the segmenter takes
    for one. *)
Lemma format_date_test (raw : str) :
  is_date_line (strip (rstrip_newline raw)) = is_date_line raw.
Proof.
  unfold is_date_line. rewrite strip_idem.
  destruct (rstrip_newline_split raw) as [b [Hb Hsp]].
  assert (E : strip raw = strip (rstrip_newline raw)).
  { rewrite Hb at 1.
    exact (strip_pad [] (rstrip_newline raw) b (Forall_nil _) Hsp). }
  now rewrite E.
Qed.



Lemma format_loop_no_date (lines : list str) :
  Forall (fun l => is_date_line l = false) lines ->
  forall out_lines fcw,
    format_loop lines out_lines fcw
    = out_lines ++ map (fun raw => prettify_line (rstrip_newline raw)) lines.
Proof.
  induction 1 as [|raw rest Hraw _ IH]; intros out fcw; cbn [format_loop map].
  - now rewrite app_nil_r.
  - rewrite format_date_test, Hraw.
    destruct (nonempty (strip (rstrip_newline raw))) eqn:Hne; cbn [negb].
    + rewrite IH, <- app_assoc. reflexivity.
    + rewrite IH, <- app_assoc. cbn [app]. do 2 f_equal.
      unfold prettify_line. now rewrite Hne.
Qed.

(** X18: on a document with no date marker the formatter works line by line:
    it writes [prettify_line] of each line, and no separator. *)
Theorem format_cost_lines_no_date (lines : list str) :
  Forall (fun l => is_date_line l = false) lines ->
  format_cost_lines lines
  = map (fun raw => prettify_line (rstrip_newline raw)) lines.
Proof.
  intros H. unfold format_cost_lines. now rewrite format_loop_no_date.
Qed.

Lemma format_cost_lines_no_date_witness :
  format_cost_lines [lit "a" ++ [c_tab] ++ lit "b"; lit "  "; s_funds]
  = map (fun raw => prettify_line (rstrip_newline raw))
        [lit "a" ++ [c_tab] ++ lit "b"; lit "  "; s_funds].
Proof.
  apply format_cost_lines_no_date. repeat constructor.
Defined.

Lemma strip_rstrip (x : str) : strip (rstrip x) = strip x.
Proof.
  rewrite (rstrip_split x) at 2.
  symmetry. apply (strip_pad [] (rstrip x)); [constructor|].
  apply Forall_rev, takewhile_all.
Qed.

Lemma strip_fixed (c : char) (y : str) :
  isspace c = false -> rstrip (c :: y) = c :: y -> strip (c :: y) = c :: y.
Proof.
  intros Hc Ht. unfold strip, lstrip. now rewrite dropwhile_stop.
Qed.

Lemma item_not_keyword (s : str) :
  existsb (str_eqb (s_item ++ s)) keywords = false.
Proof. reflexivity. Qed.

(** X19: on a line without a tab [prettify_line] changes nothing when it is
    applied a second time. *)
Theorem prettify_line_idempotent (text : str) :
  contains [c_tab] text = false ->
  prettify_line (prettify_line text) = prettify_line text.
Proof.
  intros Htab.
  pose proof (prettify_line_tidy text) as Htidy.
  pose proof (prettify_line_no_tab text) as Hnt.
  remember (prettify_line text) as y eqn:Ey.
  unfold prettify_line in Ey. rewrite Htab in Ey.
  destruct (nonempty (strip text)) eqn:Hne; cbn [negb] in Ey;
    [|now subst y].
  destruct (existsb (str_eqb (strip text)) keywords) eqn:Hkw; subst y.
  - unfold prettify_line.
    change (s_item ++ strip text) with (c_minus :: 32%N :: strip text) in *.
    rewrite (strip_fixed c_minus _ eq_refl Htidy). cbn [nonempty negb].
    rewrite Hnt.
    change (c_minus :: 32%N :: strip text) with (s_item ++ strip text).
    now rewrite item_not_keyword.
  - unfold prettify_line. rewrite strip_rstrip, Hne. cbn [negb].
    now rewrite Hnt, Hkw.
Qed.

Lemma prettify_line_idempotent_witness :
  prettify_line (prettify_line (lit "  " ++ s_funds ++ lit " "))
  = prettify_line (lit "  " ++ s_funds ++ lit " ").
Proof.
  apply prettify_line_idempotent. reflexivity.
Defined.

(** ** Formatting a formatted document *)







